(** * go-nebulas: the MVCC database overlay (package mvccdbv2) and the
      batch trie (package trie)

    A shallow embedding of [common/mvccdbv2/mvccdb.go] and of the batch
    trie, with the properties of the transactional overlay stated and
    proved over it. *)

From stdpp Require Import list strings.
From Stdlib Require Import Strings.Byte.

Set Default Proof Using "Type".

(** ** Byte slices, transaction identities, errors *)

(** A key is a Go [[]byte]. *)
Definition bytes := list byte.

(** A value is a Go [[]byte] that the code compares with [nil]: [None] is the
    nil slice, [Some []] the empty, non-nil one. *)
Definition slice := option bytes.

#[global] Instance byte_eq_decision : EqDecision byte := byte_eq_dec.

(** A transaction identity is a Go [interface{}] value other than [nil]: the
    root DB uses its own address ([db.tid = db]), prepared DBs use the value
    handed to [Prepare]. *)
Inductive Tid :=
  | TidSelf (addr : nat)
  | TidVal (name : string).

#[global] Instance Tid_eq_decision : EqDecision Tid.
Proof. solve_decision. Defined.

(** The error values of [mvccdb.go], [storage.ErrKeyNotFound], any other error
    a storage returns, and the [ConflictWithSibling] of the specification,
    the error of a refused merge. *)
Inductive error :=
  | ErrUnsupportedNestedTransaction
  | ErrTransactionNotStarted
  | ErrDisallowedCallingInNoPreparedDB
  | ErrTidIsNil
  | ErrUnsupportedBeginInPreparedDB
  | ErrUnsupportedCommitInPreparedDB
  | ErrUnsupportedRollBackInPreparedDB
  | ErrPreparedDBIsDirty
  | ErrTidIsExist
  | ErrKeyNotFound
  | ErrStorage (msg : string)
  | ErrConflictWithSibling (sibling : Tid).

#[global] Instance error_eq_decision : EqDecision error.
Proof. solve_decision. Defined.

(** ** The storage interface

    [storage.Storage] is a Go interface; a storage is a state of some type
    [St] with the three methods the overlay calls.  [Get] does not change the
    state; [Put] and [Del] return the new state and Go's [error] ([None] is
    [nil]). *)
Class Storage (St : Type) := {
  storage_Get : St → bytes → slice * option error;
  storage_Put : St → bytes → slice → St * option error;
  storage_Del : St → bytes → St * option error;
}.

(** An in-memory storage: an association list from keys to values, at most
    one pair per key.  A missing key reads as [ErrKeyNotFound]; writes never
    fail. *)
Definition MemStorage := list (bytes * slice).

Fixpoint mem_lookup (key : bytes) (m : list (bytes * slice)) : option slice :=
  match m with
  | [] => None
  | (k, v) :: m' => if decide (k = key) then Some v else mem_lookup key m'
  end.

Fixpoint mem_remove (key : bytes) (m : list (bytes * slice)) : list (bytes * slice) :=
  match m with
  | [] => []
  | (k, v) :: m' =>
      if decide (k = key) then mem_remove key m' else (k, v) :: mem_remove key m'
  end.

#[global] Instance MemStorage_Storage : Storage MemStorage := {
  storage_Get m key :=
    match mem_lookup key m with
    | Some v => (v, None)
    | None => (None, Some ErrKeyNotFound)
    end;
  storage_Put m key v := ((key, v) :: mem_remove key m, None);
  storage_Del m key := (mem_remove key m, None);
}.

(** The writes a storage receives. *)
Inductive BackendCall :=
  | CallPut (key : bytes) (val : slice)
  | CallDel (key : bytes).

#[global] Instance BackendCall_eq_decision : EqDecision BackendCall.
Proof. solve_decision. Defined.

(** Any storage wrapped so that it also logs every put and delete it
    receives, oldest first. *)
Record Recorded (St : Type) := mkRecorded { backend : St; calls : list BackendCall }.
Arguments mkRecorded {St} _ _.
Arguments backend {St} _.
Arguments calls {St} _.

#[global] Instance Recorded_Storage `{Storage St} : Storage (Recorded St) := {
  storage_Get r key := storage_Get (backend r) key;
  storage_Put r key v :=
    let '(s', e) := storage_Put (backend r) key v in
    (mkRecorded s' (calls r ++ [CallPut key v]), e);
  storage_Del r key :=
    let '(s', e) := storage_Del (backend r) key in
    (mkRecorded s' (calls r ++ [CallDel key]), e);
}.

(** ** Package mvccdbv2 *)
Module mvccdbv2.

(** *** The staging table *)

(** Modelled from the spec: the versionized value, the record of a staging
    table ([staging_table.go] is not among the sources; [mvccdb.go] reads the
    fields [key], [val], [deleted], [dirty] and calls [isDefault]). *)
Record VersionizedValueItem := mkItem {
  key : bytes;
  val : slice;
  owner_tid : Tid;
  deleted : bool;
  dirty : bool;
  is_default : bool;
  version : nat;
  old_val : slice;
}.

#[global] Instance VersionizedValueItem_eq_decision : EqDecision VersionizedValueItem.
Proof. solve_decision. Defined.

(** Modelled from the spec: [isDefault], the [default] field of the record. *)
Definition isDefault (value : VersionizedValueItem) : bool := is_default value.

(** Modelled from the spec: the staging table, its owner TID and its records
    in insertion order, at most one per key.  The references [parent] and
    [children] of the spec's data model are carried by the tree of DBs below:
    a DB and its table are created together, and the table of a prepared DB is
    the child, under the same TID, of the table of the DB that prepared it.
    An operation that follows [parent] takes the ancestor tables, nearest
    first, and returns them; an operation that follows [children] is defined
    on the tree of DBs. *)
Record StagingTable := mkStagingTable {
  table_tid : Tid;
  versionizedValues : list VersionizedValueItem;
}.

(** Modelled from the spec: [NewStagingTable], an empty table owned by
    [tid]. *)
Definition NewStagingTable (tid : Tid) : StagingTable := mkStagingTable tid [].

(** Modelled from the spec: [GetVersionizedValues], the records that [Commit]
    iterates.  The order of the list stands for the order in which one
    [range] visits them, which the spec leaves open: two calls may differ in
    it, and no statement below relies on their agreeing. *)
Definition GetVersionizedValues (tbl : StagingTable) : list VersionizedValueItem :=
  versionizedValues tbl.

(** Modelled from the spec: the record of a key, if the table has one. *)
Fixpoint find_item (k : bytes) (l : list VersionizedValueItem) : option VersionizedValueItem :=
  match l with
  | [] => None
  | v :: l' => if decide (key v = k) then Some v else find_item k l'
  end.

(** Modelled from the spec: a record stored under its key, in place when the
    key has a record, at the end otherwise (insertion order). *)
Fixpoint store_item (new : VersionizedValueItem) (l : list VersionizedValueItem)
  : list VersionizedValueItem :=
  match l with
  | [] => [new]
  | v :: l' => if decide (key v = key new) then new :: l' else v :: store_item new l'
  end.

(** Modelled from the spec: the table with its records replaced. *)
Definition set_values (tbl : StagingTable) (l : list VersionizedValueItem) : StagingTable :=
  mkStagingTable (table_tid tbl) l.

(** Modelled from the spec: the record materialized by a read-through (§4.2
    [get], steps 3 and 4). *)
Definition default_item (tid : Tid) (k : bytes) (found : slice) : VersionizedValueItem :=
  mkItem k found tid false false true 0 found.

Section WithStorage.
Context `{Storage St}.

(** Modelled from the spec: the read of the backend by a root table (§4.2
    [get], steps 2 and 5): [KeyNotFound] is an absent value, any other error
    is passed on. *)
Definition loadFromStorage (s : St) (k : bytes) : error + slice :=
  match storage_Get s k with
  | (v, None) => inr v
  | (_, Some ErrKeyNotFound) => inr None
  | (_, Some e) => inl e
  end.

(** Modelled from the spec: [StagingTable.Get] (§4.2 [get]).  The table's own
    record if it has one; otherwise the key is read through the parent table
    with the parent's own [get], or from the backend for a root table, and a
    default record is inserted.  A tombstone of the parent reads as absent. *)
Fixpoint tbl_Get (tbl : StagingTable) (ancestors : list StagingTable) (s : St) (k : bytes)
  {struct ancestors}
  : (error + VersionizedValueItem) * StagingTable * list StagingTable :=
  match find_item k (versionizedValues tbl) with
  | Some v => (inr v, tbl, ancestors)
  | None =>
      match ancestors with
      | [] =>
          match loadFromStorage s k with
          | inl e => (inl e, tbl, [])
          | inr found =>
              let v := default_item (table_tid tbl) k found in
              (inr v, set_values tbl (versionizedValues tbl ++ [v]), [])
          end
      | parent :: up =>
          let '(r, parent', up') := tbl_Get parent up s k in
          match r with
          | inl e => (inl e, tbl, parent' :: up')
          | inr pv =>
              let found := if deleted pv then None else val pv in
              let v := default_item (table_tid tbl) k found in
              (inr v, set_values tbl (versionizedValues tbl ++ [v]), parent' :: up')
          end
      end
  end.

(** Modelled from the spec: the record after a write (§4.2 [put]/[del], steps
    2 and 3): a default record is upgraded, any other is changed in place. *)
Definition written (cur : VersionizedValueItem) (v : slice) (del : bool)
  : VersionizedValueItem :=
  if is_default cur
  then mkItem (key cur) v (owner_tid cur) del true false 1 (val cur)
  else mkItem (key cur) v (owner_tid cur) del true false (S (version cur)) (old_val cur).

(** Modelled from the spec: a write (§4.2 [put]/[del]): the record is fetched
    with [get], then written. *)
Definition tbl_write (tbl : StagingTable) (ancestors : list StagingTable) (s : St)
    (k : bytes) (v : slice) (del : bool)
  : (error + VersionizedValueItem) * StagingTable * list StagingTable :=
  let '(r, tbl1, anc1) := tbl_Get tbl ancestors s k in
  match r with
  | inl e => (inl e, tbl1, anc1)
  | inr cur =>
      let new := written cur v del in
      (inr new, set_values tbl1 (store_item new (versionizedValues tbl1)), anc1)
  end.

(** Modelled from the spec: [StagingTable.Put]. *)
Definition tbl_Put tbl ancestors s k (v : slice) := tbl_write tbl ancestors s k v false.

(** Modelled from the spec: [StagingTable.Del]; a tombstone has no value. *)
Definition tbl_Del tbl ancestors s k := tbl_write tbl ancestors s k None true.

End WithStorage.

(** Modelled from the spec: [StagingTable.Prepare] (§4.2 [prepare]), given
    the TIDs of the children the table already has. *)
Definition tbl_Prepare (children : list Tid) (tid : Tid) : error + StagingTable :=
  if decide (tid ∈ children) then inl ErrTidIsExist else inr (NewStagingTable tid).

(** Modelled from the spec: [StagingTable.Purge] on the table's own records
    (§4.2 [purge]); its descent into the children is [purgeTables] below. *)
Definition tbl_Purge (tbl : StagingTable) : StagingTable := set_values tbl [].

(** Modelled from the spec: check (a) of §4.2 [merge_to_parent] for one record
    [r] of the child: the TID of the parent's record when that record is a
    dirty write of a transaction outside [chain] whose value is not the
    [old_val] of [r].  This is the rule as §4.2(a) words it, with its
    condition on the owner, which §9 names as the one to follow; the
    glossary's entry for a conflict is shorter and leaves the owner out. *)
Definition conflict_of (chain : list Tid) (parent : list VersionizedValueItem)
    (r : VersionizedValueItem) : option Tid :=
  match find_item (key r) parent with
  | Some p =>
      if dirty p && bool_decide (owner_tid p ∉ chain)
         && negb (bool_decide (val p = old_val r))
      then Some (owner_tid p) else None
  | None => None
  end.

(** Modelled from the spec: the first conflict over the child's records, in
    insertion order (§4.2, ordering). *)
Fixpoint first_conflict (chain : list Tid) (parent rs : list VersionizedValueItem)
  : option Tid :=
  match rs with
  | [] => None
  | r :: rs' =>
      match conflict_of chain parent r with
      | Some t => Some t
      | None => first_conflict chain parent rs'
      end
  end.

(** Modelled from the spec: step (b) of §4.2 [merge_to_parent] for one record
    of the child, with the TIDs of the overwritten sibling writes collected
    once each in the order met.  A record that was only read is not
    propagated.  The record written into the parent's table carries [ctid],
    the TID of the child that merges: check (a) of §4.2, the list that
    [check_and_update] returns (§4.1), the error [ConflictWithSibling(tid)]
    (§7), property 7 of §8 and scenario S5 all find the TID of the sibling
    that wrote a record on that record in the parent's table.  (The words
    [owner_tid = parent.owner_tid] of (b) would leave no sibling TID in any
    parent table, and S5 without its conflict.) *)
Definition merge_item (ctid : Tid) (chain : list Tid)
    (acc : list VersionizedValueItem * list Tid) (r : VersionizedValueItem)
  : list VersionizedValueItem * list Tid :=
  if dirty r then
    let prior := find_item (key r) acc.1 in
    let new := mkItem (key r) (val r) ctid (deleted r) true false
                 (S (from_option version 0 prior)) (prior ≫= val) in
    let lost :=
      match prior with
      | Some p =>
          if dirty p && bool_decide (owner_tid p ∉ chain)
             && bool_decide (owner_tid p ∉ acc.2)
          then acc.2 ++ [owner_tid p] else acc.2
      | None => acc.2
      end in
    (store_item new acc.1, lost)
  else acc.

(** Modelled from the spec: [StagingTable.MergeToParent] (§4.2
    [merge_to_parent]).  All checks first; then the writes into the parent and
    the purge of the child's records.  It is callable only on a child table:
    a table without parent is refused with the error for a DB that is not
    prepared. *)
Definition tbl_MergeToParent (tbl : StagingTable) (ancestors : list StagingTable)
  : (error + list Tid) * StagingTable * list StagingTable :=
  match ancestors with
  | [] => (inl ErrDisallowedCallingInNoPreparedDB, tbl, [])
  | parent :: up =>
      let chain := table_tid tbl :: table_tid parent :: map table_tid up in
      match first_conflict chain (versionizedValues parent) (versionizedValues tbl) with
      | Some t => (inl (ErrConflictWithSibling t), tbl, parent :: up)
      | None =>
          let merged := foldl (merge_item (table_tid tbl) chain)
                          (versionizedValues parent, []) (versionizedValues tbl) in
          (inr merged.2, tbl_Purge tbl, set_values parent merged.1 :: up)
      end
  end.

(** *** The transactional DB ([mvccdb.go]) *)

(** [MVCCDB].  The map [preparedDBs] is a list of pairs, in the order a
    [range] over it visits them (Go leaves that order open; nothing below
    fixes it).  The prepared DBs are owned by the DB that prepared them, so
    the DBs of one root form a tree; [parentDB] is the position in that tree
    and [storage], shared by all of them, is passed to the operations that
    use it.  [mutex] guards each call and is not modelled. *)
#[warnings="-register-all"]
Inductive MVCCDB := mkMVCCDB {
  tid : Tid;
  stagingTable : StagingTable;
  isInTransaction : bool;
  isPreparedDB : bool;
  isDirtyDB : bool;
  preparedDBs : list (Tid * MVCCDB);
}.

Definition set_stagingTable (db : MVCCDB) (tbl : StagingTable) : MVCCDB :=
  mkMVCCDB (tid db) tbl (isInTransaction db) (isPreparedDB db) (isDirtyDB db)
    (preparedDBs db).

Definition set_isInTransaction (db : MVCCDB) (b : bool) : MVCCDB :=
  mkMVCCDB (tid db) (stagingTable db) b (isPreparedDB db) (isDirtyDB db)
    (preparedDBs db).

Definition set_isDirtyDB (db : MVCCDB) (b : bool) : MVCCDB :=
  mkMVCCDB (tid db) (stagingTable db) (isInTransaction db) (isPreparedDB db) b
    (preparedDBs db).

Definition set_preparedDBs (db : MVCCDB) (l : list (Tid * MVCCDB)) : MVCCDB :=
  mkMVCCDB (tid db) (stagingTable db) (isInTransaction db) (isPreparedDB db)
    (isDirtyDB db) l.

(** [db.preparedDBs[tid]] *)
Fixpoint lookup_prepared (t : Tid) (l : list (Tid * MVCCDB)) : option MVCCDB :=
  match l with
  | [] => None
  | (t', pdb) :: l' => if decide (t' = t) then Some pdb else lookup_prepared t l'
  end.

(** [NewMVCCDB]: [addr] is the address of the new DB, which is its TID. *)
Definition NewMVCCDB (addr : nat) : MVCCDB :=
  mkMVCCDB (TidSelf addr) (NewStagingTable (TidSelf addr)) false false false [].

(** [Begin] *)
Definition Begin (db : MVCCDB) : option error * MVCCDB :=
  if isInTransaction db then (Some ErrUnsupportedNestedTransaction, db)
  else if isPreparedDB db then (Some ErrUnsupportedBeginInPreparedDB, db)
  else (None, set_isInTransaction db true).

(** [IsPreparedDBDirty] *)
Fixpoint IsPreparedDBDirty (db : MVCCDB) : bool :=
  match db with
  | mkMVCCDB _ _ _ _ _ pdbs =>
      existsb (λ p, let '(_, pdb) := p in IsPreparedDBDirty pdb) pdbs
  end.

(** Modelled from the spec: [StagingTable.Purge] seen from the DB that holds
    the table: the table's records are cleared, and so are those of its
    children, which are the tables of the prepared DBs. *)
Fixpoint purgeTables (db : MVCCDB) : MVCCDB :=
  match db with
  | mkMVCCDB t tbl inTx prep dty pdbs =>
      mkMVCCDB t (tbl_Purge tbl) inTx prep dty
        (map (λ p, let '(t', pdb) := p in (t', purgeTables pdb)) pdbs)
  end.

(** [Reset] *)
Fixpoint Reset (db : MVCCDB) : option error * MVCCDB :=
  match db with
  | mkMVCCDB t tbl inTx prep dty pdbs =>
      if negb inTx then (Some ErrTransactionNotStarted, db)
      else if negb prep then (Some ErrDisallowedCallingInNoPreparedDB, db)
      else
        let pdbs' := map (λ p, let '(t', pdb) := p in (t', (Reset pdb).2)) pdbs in
        (None, set_isDirtyDB (purgeTables (mkMVCCDB t tbl inTx prep dty pdbs')) false)
  end.

Section WithStorage.
Context `{Storage St}.

Definition getFromStorage (s : St) (k : bytes) : slice * option error := storage_Get s k.
Definition putToStorage (s : St) (k : bytes) (v : slice) : St * option error :=
  storage_Put s k v.
Definition delFromStorage (s : St) (k : bytes) : St * option error := storage_Del s k.

(** The body of the loop of [Commit]. *)
Definition flush (s : St) (value : VersionizedValueItem) : St :=
  if isDefault value then s
  else if negb (dirty value) then s
  else if deleted value then (delFromStorage s (key value)).1
  else (putToStorage s (key value) (val value)).1.

(** [Commit] *)
Definition Commit (db : MVCCDB) (s : St) : option error * MVCCDB * St :=
  if negb (isInTransaction db) then (Some ErrTransactionNotStarted, db, s)
  else if isPreparedDB db then (Some ErrUnsupportedCommitInPreparedDB, db, s)
  else if IsPreparedDBDirty db then (Some ErrPreparedDBIsDirty, db, s)
  else
    let s' := foldl flush s (GetVersionizedValues (stagingTable db)) in
    (None, set_isDirtyDB (set_isInTransaction db false) false, s').

(** [RollBack] *)
Definition RollBack (db : MVCCDB) (s : St) : option error * MVCCDB * St :=
  if negb (isInTransaction db) then (Some ErrTransactionNotStarted, db, s)
  else if isPreparedDB db then (Some ErrUnsupportedRollBackInPreparedDB, db, s)
  else
    let pdbs' := map (λ p : Tid * MVCCDB, (p.1, (Reset p.2).2)) (preparedDBs db) in
    let db1 := purgeTables (set_preparedDBs db pdbs') in
    (None, set_isDirtyDB (set_isInTransaction db1 false) false, s).

(** [Get] *)
Definition Get (db : MVCCDB) (ancestors : list StagingTable) (s : St) (k : bytes)
  : (slice * option error) * MVCCDB * list StagingTable * St :=
  if negb (isInTransaction db) then (getFromStorage s k, db, ancestors, s)
  else
    let '(r, tbl', anc') := tbl_Get (stagingTable db) ancestors s k in
    let db' := set_stagingTable db tbl' in
    match r with
    | inl err => ((None, Some err), db', anc', s)
    | inr value =>
        if deleted value || bool_decide (val value = None)
        then ((None, Some ErrKeyNotFound), db', anc', s)
        else ((val value, None), db', anc', s)
    end.

(** [Put] *)
Definition Put (db : MVCCDB) (ancestors : list StagingTable) (s : St) (k : bytes)
    (v : slice) : option error * MVCCDB * list StagingTable * St :=
  if negb (isInTransaction db) then
    let '(s', err) := putToStorage s k v in (err, db, ancestors, s')
  else
    let '(r, tbl', anc') := tbl_Put (stagingTable db) ancestors s k v in
    let db' := set_stagingTable db tbl' in
    match r with
    | inl err => (Some err, db', anc', s)
    | inr _ => (None, set_isDirtyDB db' true, anc', s)
    end.

(** [Del] *)
Definition Del (db : MVCCDB) (ancestors : list StagingTable) (s : St) (k : bytes)
  : option error * MVCCDB * list StagingTable * St :=
  if negb (isInTransaction db) then
    let '(s', err) := delFromStorage s k in (err, db, ancestors, s')
  else
    let '(r, tbl', anc') := tbl_Del (stagingTable db) ancestors s k in
    let db' := set_stagingTable db tbl' in
    match r with
    | inl err => (Some err, db', anc', s)
    | inr _ => (None, set_isDirtyDB db' true, anc', s)
    end.

End WithStorage.

(** [Prepare]: [None] is the [nil] of Go, for the TID handed in and for the
    DB handed back. *)
Definition Prepare (db : MVCCDB) (tid : option Tid)
  : (option MVCCDB * option error) * MVCCDB :=
  if negb (isInTransaction db) then ((None, Some ErrTransactionNotStarted), db)
  else
    match tid with
    | None => ((None, Some ErrTidIsNil), db)
    | Some t =>
        match lookup_prepared t (preparedDBs db) with
        | Some _ => ((None, Some ErrTidIsExist), db)
        | None =>
            match tbl_Prepare (preparedDBs db).*1 t with
            | inl err => ((None, Some err), db)
            | inr preparedStagingTable =>
                let preparedDB := mkMVCCDB t preparedStagingTable true true false [] in
                ((Some preparedDB, None),
                 set_preparedDBs db (preparedDBs db ++ [(t, preparedDB)]))
            end
        end
    end.

(** [CheckAndUpdate] *)
Definition CheckAndUpdate (db : MVCCDB) (ancestors : list StagingTable)
  : (list Tid * option error) * MVCCDB * list StagingTable :=
  if negb (isInTransaction db) then (([], Some ErrTransactionNotStarted), db, ancestors)
  else if negb (isPreparedDB db)
  then (([], Some ErrDisallowedCallingInNoPreparedDB), db, ancestors)
  else
    let '(r, tbl', anc') := tbl_MergeToParent (stagingTable db) ancestors in
    let db' := set_stagingTable db tbl' in
    match r with
    | inl err => (([], Some err), db', anc')
    | inr ret => ((ret, None), set_isDirtyDB db' false, anc')
    end.

(** *** Calls through the handle of a prepared DB *)

Definition replace_prepared (t : Tid) (pdb : MVCCDB) (l : list (Tid * MVCCDB))
  : list (Tid * MVCCDB) :=
  map (λ p : Tid * MVCCDB, if decide (p.1 = t) then (t, pdb) else p) l.

(** [Prepare] hands back a pointer to the DB it registered.  A call [f]
    through that pointer works on the DB registered under [t] and, through
    [parent], on the table of [db]; both are written back. *)
Definition on_prepared {R : Type} (db : MVCCDB) (t : Tid)
    (f : MVCCDB → list StagingTable → R * MVCCDB * list StagingTable)
  : option R * MVCCDB :=
  match lookup_prepared t (preparedDBs db) with
  | None => (None, db)
  | Some pdb =>
      let '(r, pdb', anc') := f pdb [stagingTable db] in
      (Some r,
       set_preparedDBs (set_stagingTable db (hd (stagingTable db) anc'))
         (replace_prepared t pdb' (preparedDBs db)))
  end.

(** The prepared DBs below a DB, at any depth. *)
Inductive prepared_descendant : MVCCDB → MVCCDB → Prop :=
  | descendant_child db t pdb :
      (t, pdb) ∈ preparedDBs db → prepared_descendant db pdb
  | descendant_below db t pdb d :
      (t, pdb) ∈ preparedDBs db → prepared_descendant pdb d → prepared_descendant db d.

(** The DBs that [Prepare] builds are in a transaction and prepared, and so
    are the DBs prepared from them. *)
#[warnings="-register-all"]
Inductive prepared_tree : MVCCDB → Prop :=
  | prepared_tree_node t tbl dty pdbs :
      Forall (λ p : Tid * MVCCDB, prepared_tree p.2) pdbs →
      prepared_tree (mkMVCCDB t tbl true true dty pdbs).

(** A root DB: not prepared, its prepared DBs well formed. *)
Definition root_db (db : MVCCDB) : Prop :=
  isPreparedDB db = false ∧ Forall (λ p : Tid * MVCCDB, prepared_tree p.2) (preparedDBs db).

(** *** Sequences of calls *)

(** The three data operations of a DB. *)
Inductive op :=
  | OpGet (k : bytes)
  | OpPut (k : bytes) (v : slice)
  | OpDel (k : bytes).

Section Runs.
Context `{Storage St}.

(** One data operation on a DB; [Put] and [Del] hand back no value. *)
Definition do_op (o : op) (db : MVCCDB) (ancestors : list StagingTable) (s : St)
  : (slice * option error) * MVCCDB * list StagingTable * St :=
  match o with
  | OpGet k => Get db ancestors s k
  | OpPut k v =>
      let '(err, db', anc', s') := Put db ancestors s k v in ((None, err), db', anc', s')
  | OpDel k =>
      let '(err, db', anc', s') := Del db ancestors s k in ((None, err), db', anc', s')
  end.

(** The same operation called on the storage itself. *)
Definition direct_op (o : op) (s : St) : (slice * option error) * St :=
  match o with
  | OpGet k => (storage_Get s k, s)
  | OpPut k v => let '(s', err) := storage_Put s k v in ((None, err), s')
  | OpDel k => let '(s', err) := storage_Del s k in ((None, err), s')
  end.

Fixpoint run_ops (ops : list op) (db : MVCCDB) (ancestors : list StagingTable) (s : St)
  : list (slice * option error) * MVCCDB * list StagingTable * St :=
  match ops with
  | [] => ([], db, ancestors, s)
  | o :: ops' =>
      let '(r, db1, anc1, s1) := do_op o db ancestors s in
      let '(rs, db2, anc2, s2) := run_ops ops' db1 anc1 s1 in
      (r :: rs, db2, anc2, s2)
  end.

Fixpoint direct_ops (ops : list op) (s : St) : list (slice * option error) * St :=
  match ops with
  | [] => ([], s)
  | o :: ops' =>
      let '(r, s1) := direct_op o s in
      let '(rs, s2) := direct_ops ops' s1 in
      (r :: rs, s2)
  end.

(** What a client does inside a transaction of a root DB: data operations on
    the root or through the handle of a prepared DB, [Prepare] on the root,
    [CheckAndUpdate] and [Reset] through a handle. *)
Inductive call :=
  | OnRoot (o : op)
  | OnPrepared (t : Tid) (o : op)
  | CallPrepare (t : option Tid)
  | CallCheckAndUpdate (t : Tid)
  | CallReset (t : Tid).

Definition do_call (c : call) (db : MVCCDB) (s : St) : MVCCDB * St :=
  match c with
  | OnRoot o => let '(_, db', _, s') := do_op o db [] s in (db', s')
  | OnPrepared t o =>
      let '(r, db') :=
        on_prepared db t (λ pdb anc,
          let '(r, pdb', anc', s') := do_op o pdb anc s in (s', pdb', anc')) in
      (db', from_option id s r)
  | CallPrepare t => ((Prepare db t).2, s)
  | CallCheckAndUpdate t => ((on_prepared db t CheckAndUpdate).2, s)
  | CallReset t =>
      ((on_prepared db t (λ pdb anc, let '(err, pdb') := Reset pdb in (err, pdb', anc))).2, s)
  end.

Definition run_calls (cs : list call) (db : MVCCDB) (s : St) : MVCCDB * St :=
  foldl (λ st c, do_call c st.1 st.2) (db, s) cs.

End Runs.

(** The writes of a commit, as the storage receives them. *)
Definition flushed (value : VersionizedValueItem) : bool :=
  negb (is_default value) && dirty value.

Definition call_of (value : VersionizedValueItem) : BackendCall :=
  if deleted value then CallDel (key value) else CallPut (key value) (val value).

Definition apply_call `{Storage St} (s : St) (c : BackendCall) : St :=
  match c with
  | CallPut k v => (storage_Put s k v).1
  | CallDel k => (storage_Del s k).1
  end.

(** A tree of DBs with every staging table purged and no DB dirty: what
    resetting every prepared DB and purging the table leaves. *)
Fixpoint cleared (db : MVCCDB) : MVCCDB :=
  match db with
  | mkMVCCDB t tbl inTx prep _ pdbs =>
      mkMVCCDB t (tbl_Purge tbl) inTx prep false
        (map (λ p, let '(t', pdb) := p in (t', cleared pdb)) pdbs)
  end.


End mvccdbv2.

(** ** Package trie: the batch trie *)
Module trie.

(** [Trie] is not among the sources: the methods the batch trie calls are
    taken as an interface.  [Put] and [Del] hand back the trie they leave, the
    new root hash and Go's [error]; [Clone] hands back the copy or an error. *)
Class Trie (T : Type) := {
  trie_Get : T → bytes → slice * option error;
  trie_Put : T → bytes → slice → T * (slice * option error);
  trie_Del : T → bytes → T * (slice * option error);
  trie_Clone : T → error + T;
}.

(** [Action] *)
Inductive Action := Insert | Update | Delete | Get.

#[global] Instance Action_eq_decision : EqDecision Action.
Proof. solve_decision. Defined.

(** [Entry] *)
Record Entry := mkEntry {
  action : Action;
  key : bytes;
  old : slice;
  update : slice;
}.

(** A Go [map[string]*Entry]: [None] is the nil map, [Some l] a map with the
    pairs of [l], at most one per key, in the order a [range] visits them. *)
Definition oplog := option (list (string * Entry)).

Fixpoint assoc_lookup (k : string) (l : list (string * Entry)) : option Entry :=
  match l with
  | [] => None
  | (k', e) :: l' => if decide (k' = k) then Some e else assoc_lookup k l'
  end.

Fixpoint assoc_assign (k : string) (e : Entry) (l : list (string * Entry))
  : list (string * Entry) :=
  match l with
  | [] => [(k, e)]
  | (k', e') :: l' =>
      if decide (k' = k) then (k, e) :: l' else (k', e') :: assoc_assign k e l'
  end.

(** [m[k]] with its [ok]: reading a nil map finds nothing. *)
Definition map_lookup (m : oplog) (k : string) : option Entry :=
  match m with
  | None => None
  | Some l => assoc_lookup k l
  end.

(** [m[k] = e]: [None] is the panic of an assignment to an entry in a nil
    map. *)
Definition map_assign (m : oplog) (k : string) (e : Entry) : option oplog :=
  match m with
  | None => None
  | Some l => Some (Some (assoc_assign k e l))
  end.

(** [if _, ok := m[k]; !ok { m[k] = e }] *)
Definition map_assign_absent (m : oplog) (k : string) (e : Entry) : option oplog :=
  match map_lookup m k with
  | Some _ => Some m
  | None => map_assign m k e
  end.

(** [BatchTrie] *)
Record BatchTrie (T : Type) := mkBatchTrie {
  trie : T;
  changelog : list Entry;
  batching : bool;
  initialoplog : oplog;
  finaloplog : oplog;
}.
Arguments mkBatchTrie {T} _ _ _ _ _.
Arguments trie {T} _.
Arguments changelog {T} _.
Arguments batching {T} _.
Arguments initialoplog {T} _.
Arguments finaloplog {T} _.

(** How a call ends: it returns a value, or it panics; either way it leaves
    a batch trie behind. *)
Inductive outcome (T A : Type) :=
  | Returns (a : A) (bt : BatchTrie T)
  | Panics (bt : BatchTrie T).
Arguments Returns {T A} _ _.
Arguments Panics {T A} _.

(** What a call leaves behind. *)
Definition left_by {T A : Type} (o : outcome T A) : BatchTrie T :=
  match o with
  | Returns _ bt => bt
  | Panics bt => bt
  end.

Definition panics {T A : Type} (o : outcome T A) : Prop :=
  match o with
  | Returns _ _ => False
  | Panics _ => True
  end.


Section WithTrie.
Context `{Trie T}.

(** [byteutils.Hex], which is not among the sources. *)
Variable Hex : bytes → string.

(** [BatchTrie.Get] *)
Definition bt_Get (bt : BatchTrie T) (k : bytes) : outcome T (slice * option error) :=
  let '(val, err) := trie_Get (trie bt) k in
  let entry := mkEntry Get k val val in
  match map_assign_absent (initialoplog bt) (Hex (key entry)) entry with
  | None => Panics bt
  | Some init' =>
      let bt1 := mkBatchTrie (trie bt) (changelog bt) (batching bt) init' (finaloplog bt) in
      if match map_lookup (finaloplog bt1) (Hex (key entry)) with
         | None => true
         | Some _ => bool_decide (action entry = Get)
         end
      then
        match map_assign (finaloplog bt1) (Hex (key entry)) entry with
        | None => Panics bt1
        | Some fin' =>
            Returns (val, err)
              (mkBatchTrie (trie bt) (changelog bt) (batching bt) init' fin')
        end
      else Returns (val, err) bt1
  end.

(** [BatchTrie.Put] *)
Definition bt_Put (bt : BatchTrie T) (k : bytes) (val : slice)
  : outcome T (slice * option error) :=
  let '(old, getErr) := trie_Get (trie bt) k in
  let entry :=
    match getErr with
    | Some _ => mkEntry Insert k None val
    | None => mkEntry Update k old val
    end in
  let '(t', (rootHash, putErr)) := trie_Put (trie bt) k val in
  let bt1 :=
    mkBatchTrie t' (changelog bt) (batching bt) (initialoplog bt) (finaloplog bt) in
  match putErr with
  | Some e => Returns (None, Some e) bt1
  | None =>
      match map_assign_absent (initialoplog bt1) (Hex (key entry)) entry with
      | None => Panics bt1
      | Some init' =>
          let bt2 := mkBatchTrie t' (changelog bt) (batching bt) init' (finaloplog bt) in
          match map_assign (finaloplog bt2) (Hex (key entry)) entry with
          | None => Panics bt2
          | Some fin' =>
              Returns (rootHash, None)
                (mkBatchTrie t'
                   (if batching bt then changelog bt ++ [entry] else changelog bt)
                   (batching bt) init' fin')
          end
      end
  end.

(** [BatchTrie.Del] *)
Definition bt_Del (bt : BatchTrie T) (k : bytes) : outcome T (slice * option error) :=
  let '(old, getErr) := trie_Get (trie bt) k in
  let entry :=
    match getErr with
    | None => mkEntry Delete k old None
    | Some _ => mkEntry Delete k None None
    end in
  let '(t', (rootHash, err)) := trie_Del (trie bt) k in
  let bt1 :=
    mkBatchTrie t' (changelog bt) (batching bt) (initialoplog bt) (finaloplog bt) in
  match err with
  | Some e => Returns (None, Some e) bt1
  | None =>
      match map_assign_absent (initialoplog bt1) (Hex (key entry)) entry with
      | None => Panics bt1
      | Some init' =>
          let bt2 := mkBatchTrie t' (changelog bt) (batching bt) init' (finaloplog bt) in
          match map_assign (finaloplog bt2) (Hex (key entry)) entry with
          | None => Panics bt2
          | Some fin' =>
              Returns (rootHash, None)
                (mkBatchTrie t'
                   (if batching bt then changelog bt ++ [entry] else changelog bt)
                   (batching bt) init' fin')
          end
      end
  end.

(** [BatchTrie.BeginBatch] *)
Definition bt_BeginBatch (bt : BatchTrie T) : BatchTrie T :=
  mkBatchTrie (trie bt) (changelog bt) true (initialoplog bt) (finaloplog bt).

(** [BatchTrie.Commit] *)
Definition bt_Commit (bt : BatchTrie T) : BatchTrie T :=
  mkBatchTrie (trie bt) [] false (initialoplog bt) (finaloplog bt).

(** The first loop of [RollBack]: the first entry of the change log for each
    key, in a local map made with [make]. *)
Definition compress (log : list Entry) : list (string * Entry) :=
  foldl (λ m entry,
           match assoc_lookup (Hex (key entry)) m with
           | Some _ => m
           | None => assoc_assign (Hex (key entry)) entry m
           end) [] log.

(** The body of the second loop of [RollBack]. *)
Definition undo (t : T) (entry : Entry) : T :=
  match action entry with
  | Insert => (trie_Del t (key entry)).1
  | Update | Delete => (trie_Put t (key entry) (old entry)).1
  | Get => t
  end.

(** [BatchTrie.RollBack] *)
Definition bt_RollBack (bt : BatchTrie T) : BatchTrie T :=
  let changes := compress (changelog bt) in
  mkBatchTrie (foldl undo (trie bt) changes.*2) [] false None None.

(** [bytes.Equal]: a nil slice and an empty one are equal. *)
Definition bytes_Equal (a b : slice) : bool :=
  bool_decide (from_option id [] a = from_option id [] b).

(** [BatchTrie.Clone]: the change log is shared, the logs are new maps.  The
    change log of the clone is the slice as it is at the call.  Go shares
    its backing array between the two batch tries, and [Commit] and
    [RollBack] keep that array with [[:0]], so an append through one of them
    can overwrite an entry the other holds; that takes operations on a batch
    trie and on its clone in turn, which nothing below runs. *)
Definition bt_Clone (bt : BatchTrie T) : error + BatchTrie T :=
  match trie_Clone (trie bt) with
  | inl err => inl err
  | inr tr => inr (mkBatchTrie tr (changelog bt) (batching bt) (Some []) (Some []))
  end.

(** How the first loop of [MergeWith] ends, with the map that
    [bt.initialoplog] then is: the local [initialoplog] is the same map, so
    an assignment through it is an assignment to [bt.initialoplog]. *)
Inductive first_loop :=
  | Refused (init : oplog)
  | Panicked (init : oplog)
  | Finished (init : oplog).

(** The first loop of [MergeWith] over the pairs of [tobt.initialoplog], in
    the order the [range] visits them. *)
Fixpoint compare_first_states (fin init : oplog) (tos : list (string * Entry))
  : first_loop :=
  match tos with
  | [] => Finished init
  | (_, toentry) :: tos' =>
      if match map_lookup fin (Hex (key toentry)) with
         | Some entry => negb (bytes_Equal (old toentry) (update entry))
         | None => false
         end
      then Refused init
      else
        match map_assign_absent init (Hex (key toentry)) toentry with
        | None => Panicked init
        | Some init' => compare_first_states fin init' tos'
        end
  end.

(** The body of the second loop of [MergeWith], on the new batch trie. *)
Definition merge_entry (st : outcome T ()) (entry : Entry) : outcome T () :=
  match st with
  | Panics nb => Panics nb
  | Returns _ nb =>
      match action entry with
      | Delete =>
          let nb1 := mkBatchTrie (trie_Del (trie nb) (key entry)).1 (changelog nb)
                       (batching nb) (initialoplog nb) (finaloplog nb) in
          match map_assign (finaloplog nb1) (Hex (key entry)) entry with
          | None => Panics nb1
          | Some fin' =>
              Returns () (mkBatchTrie (trie nb1) (changelog nb) (batching nb)
                            (initialoplog nb) fin')
          end
      | Update | Insert =>
          let nb1 := mkBatchTrie (trie_Put (trie nb) (key entry) (update entry)).1
                       (changelog nb) (batching nb) (initialoplog nb) (finaloplog nb) in
          match map_assign (finaloplog nb1) (Hex (key entry)) entry with
          | None => Panics nb1
          | Some fin' =>
              Returns () (mkBatchTrie (trie nb1) (changelog nb) (batching nb)
                            (initialoplog nb) fin')
          end
      | Get =>
          if match map_lookup (initialoplog nb) (Hex (key entry)) with
             | None => true
             | Some _ => bool_decide (action entry = Get)
             end
          then
            match map_assign (initialoplog nb) (Hex (key entry)) entry with
            | None => Panics nb
            | Some init' =>
                Returns () (mkBatchTrie (trie nb) (changelog nb) (batching nb) init'
                              (finaloplog nb))
            end
          else Returns () nb
      end
  end.

(** [BatchTrie.MergeWith], for two batch tries that share no map.  The
    result is the pair the call returns; the batch trie left behind is [bt],
    whose two logs are the very maps of the new batch trie. *)
Definition bt_MergeWith (bt tobt : BatchTrie T) : outcome T (bool * option (BatchTrie T)) :=
  let with_logs init fin := mkBatchTrie (trie bt) (changelog bt) (batching bt) init fin in
  match compare_first_states (finaloplog bt) (initialoplog bt)
          (from_option id [] (initialoplog tobt)) with
  | Refused init => Returns (false, None) (with_logs init (finaloplog bt))
  | Panicked init => Panics (with_logs init (finaloplog bt))
  | Finished init =>
      match bt_Clone bt with
      | inl _ => Returns (false, None) (with_logs init (finaloplog bt))
      | inr cloned =>
          let newbt :=
            mkBatchTrie (trie cloned) (changelog cloned) (batching cloned) init
              (finaloplog bt) in
          match foldl merge_entry (Returns () newbt)
                  (from_option id [] (finaloplog tobt)).*2 with
          | Panics newbt' => Panics (with_logs (initialoplog newbt') (finaloplog newbt'))
          | Returns _ newbt' =>
              Returns (true, Some newbt')
                (with_logs (initialoplog newbt') (finaloplog newbt'))
          end
      end
  end.

End WithTrie.

(** [NewBatchTrie], given the trie that [NewTrie] built. *)
Definition NewBatchTrie {T : Type} (t : T) : BatchTrie T :=
  mkBatchTrie t [] false (Some []) (Some []).

(** Both logs are the nil map. *)
Definition nil_oplogs {T : Type} (bt : BatchTrie T) : Prop :=
  initialoplog bt = None ∧ finaloplog bt = None.

(** A trie seen as a finite map, for the examples: reading or deleting a key
    that is not there is [ErrKeyNotFound], writing never fails; the root hash
    is left out. *)
Definition MemTrie := list (bytes * slice).

#[global] Instance MemTrie_Trie : Trie MemTrie := {
  trie_Get m k :=
    match mem_lookup k m with
    | Some v => (v, None)
    | None => (None, Some ErrKeyNotFound)
    end;
  trie_Put m k v := ((k, v) :: mem_remove k m, (None, None));
  trie_Del m k :=
    match mem_lookup k m with
    | Some _ => (mem_remove k m, (None, None))
    | None => (m, (None, Some ErrKeyNotFound))
    end;
  trie_Clone m := inr m;
}.

(** Lower-case hexadecimal, two digits a byte, for the examples. *)
Definition hex_digit (n : N) : Ascii.ascii :=
  match String.get (N.to_nat n) "0123456789abcdef" with
  | Some c => c
  | None => Ascii.zero
  end.

Definition hex (b : bytes) : string :=
  foldr (λ x acc, String (hex_digit (Byte.to_N x / 16))
                    (String (hex_digit (Byte.to_N x mod 16)) acc))
    EmptyString b.

(** *** The rest of the batch trie *)

Section WithTrieAndHex.
Context `{Trie T}.
Variable Hex : bytes → string.

(** [BatchTrie.RelatedTo] *)
Definition bt_RelatedTo (bt tobt : BatchTrie T) : bool :=
  existsb (λ p : string * Entry,
             match map_lookup (finaloplog tobt) (Hex (key p.2)) with
             | Some entry =>
                 negb (bool_decide (action p.2 = Get))
                 || negb (bool_decide (action entry = Get))
             | None => false
             end)
    (from_option id [] (finaloplog bt)).

(** The data operations of a batch trie. *)
Inductive bt_op :=
  | BtGet (k : bytes)
  | BtPut (k : bytes) (v : slice)
  | BtDel (k : bytes).

Definition bt_do (o : bt_op) (bt : BatchTrie T) : outcome T (slice * option error) :=
  match o with
  | BtGet k => bt_Get Hex bt k
  | BtPut k v => bt_Put Hex bt k v
  | BtDel k => bt_Del Hex bt k
  end.

(** A sequence of operations; a panic ends it. *)
Fixpoint bt_run (ops : list bt_op) (bt : BatchTrie T) : outcome T () :=
  match ops with
  | [] => Returns () bt
  | o :: ops' =>
      match bt_do o bt with
      | Returns _ bt1 => bt_run ops' bt1
      | Panics bt1 => Panics bt1
      end
  end.

Definition op_key (o : bt_op) : bytes :=
  match o with
  | BtGet k | BtPut k _ | BtDel k => k
  end.

(** The entry an operation builds from what the trie holds. *)
Definition entry_of (o : bt_op) (bt : BatchTrie T) : Entry :=
  let '(old, getErr) := trie_Get (trie bt) (op_key o) in
  match o with
  | BtGet k => mkEntry Get k old old
  | BtPut k v =>
      match getErr with
      | Some _ => mkEntry Insert k None v
      | None => mkEntry Update k old v
      end
  | BtDel k =>
      match getErr with
      | None => mkEntry Delete k old None
      | Some _ => mkEntry Delete k None None
      end
  end.

(** The trie an operation leaves, and the error of its write to the trie. *)
Definition trie_after (o : bt_op) (bt : BatchTrie T) : T * option error :=
  match o with
  | BtGet k => (trie bt, None)
  | BtPut k v => let '(t', (_, err)) := trie_Put (trie bt) k v in (t', err)
  | BtDel k => let '(t', (_, err)) := trie_Del (trie bt) k in (t', err)
  end.

Definition is_write (o : bt_op) : bool :=
  match o with
  | BtGet _ => false
  | _ => true
  end.

(** A log is keyed when every entry sits under the [Hex] of its own key, and
    no key is there twice (which a Go map cannot have). *)
Definition keyed (m : oplog) : Prop :=
  match m with
  | None => True
  | Some l => NoDup l.*1 ∧ Forall (λ p : string * Entry, p.1 = Hex (key p.2)) l
  end.

(** An entry of [tobt.initialoplog] disagrees with [bt.finaloplog]: the
    final log holds, under its key, an entry whose [update] is not its [old]
    for [bytes.Equal]. *)
Definition disagrees (fin : oplog) (toentry : Entry) : Prop :=
  ∃ entry, map_lookup fin (Hex (key toentry)) = Some entry ∧
           bytes_Equal (old toentry) (update entry) = false.

(** The first of the entries [es] that sits under the key [h]. *)
Fixpoint first_under (h : string) (es : list Entry) : option Entry :=
  match es with
  | [] => None
  | e :: es' => if decide (Hex (key e) = h) then Some e else first_under h es'
  end.

(** The first-state entries of a batch trie, as [MergeWith] ranges over
    them. *)
Definition first_states (tobt : BatchTrie T) : list Entry :=
  (from_option id [] (initialoplog tobt)).*2.

End WithTrieAndHex.

(** Both logs are maps. *)
Definition has_logs {T : Type} (bt : BatchTrie T) : Prop :=
  initialoplog bt ≠ None ∧ finaloplog bt ≠ None.

(** The two final logs hold, under one key, entries that are not both [Get]
    entries. *)
Definition share_a_write {T : Type} (bt tobt : BatchTrie T) : Prop :=
  ∃ h e1 e2, map_lookup (finaloplog bt) h = Some e1 ∧
             map_lookup (finaloplog tobt) h = Some e2 ∧
             (action e1 ≠ Get ∨ action e2 ≠ Get).

(** What the second loop of [MergeWith] leaves in the new trie under the key
    of a final entry of [tobt], where the trie held [held]: nothing for a
    [Delete], the [update] for an [Update] or an [Insert], and for a [Get]
    what the trie held. *)
Definition merged_value (e : Entry) (held : option slice) : option slice :=
  match action e with
  | Delete => None
  | Update | Insert => Some (update e)
  | Get => held
  end.

(** The content [c] with the final entries of the log [fin] merged in. *)
Definition merged (Hex : bytes → string) (c : bytes → option slice) (fin : oplog)
    (k : bytes) : option slice :=
  match map_lookup fin (Hex k) with
  | Some e => merged_value e (c k)
  | None => c k
  end.

(** What the batch trie relies on in a trie: the keys it holds are given by
    [content]; [Get] fails exactly on the keys it does not hold; [Put] does
    not fail and sets the key; [Del] fails exactly on the keys the trie does
    not hold, and removes the key otherwise; nothing else changes. *)
Class LawfulTrie (T : Type) `{Trie T} := {
  content : T → bytes → option slice;
  get_present t k v : content t k = Some v → trie_Get t k = (v, None);
  get_absent t k : content t k = None → (trie_Get t k).2 ≠ None;
  put_ok t k v : (trie_Put t k v).2.2 = None;
  put_content t k v k' :
    content (trie_Put t k v).1 k' = if decide (k' = k) then Some v else content t k';
  del_ok t k : (trie_Del t k).2.2 = None ↔ content t k ≠ None;
  del_content t k k' :
    content (trie_Del t k).1 k' = if decide (k' = k) then None else content t k';
}.

(** The first entry of a change log for a key. *)
Fixpoint first_entry (k : bytes) (log : list Entry) : option Entry :=
  match log with
  | [] => None
  | e :: log' => if decide (key e = k) then Some e else first_entry k log'
  end.

(** The entry of a write remembers what the trie held under its key before
    the write: nothing for an [Insert], the [old] value otherwise. *)
Definition remembers (c0 : bytes → option slice) (e : Entry) : Prop :=
  match action e with
  | Insert => c0 (key e) = None
  | Update | Delete => c0 (key e) = Some (old e)
  | Get => False
  end.

(** The change log [log] leads from the content [c0] to the content [c]:
    a key without entry holds what it held, and the first entry of a key
    remembers what it held. *)
Definition recorded (c0 : bytes → option slice) (log : list Entry)
    (c : bytes → option slice) : Prop :=
  ∀ k, match first_entry k log with
       | None => c k = c0 k
       | Some e => remembers c0 e
       end.

(** *** HashDomains *)

Section HashDomains.

(** [hash.Sha3256], which is not among the sources. *)
Variable Sha3256 : bytes → bytes.

(** [b[0:6]]: a panic when [b] is shorter. *)
Definition first6 (b : bytes) : option bytes :=
  if decide (6 ≤ length b) then Some (take 6 b) else None.

(** [a[i] = x] on an array: a panic out of range. *)
Definition array_set (i : nat) (x : byte) (a : bytes) : option bytes :=
  if decide (i < length a) then Some (<[i:=x]> a) else None.

(** The inner loop of [HashDomains], from index [i] of the domain on:
    [key[k*6+i] = domain[i]]; [pos] is [k*6+i]. *)
Fixpoint write_domain (pos : nat) (domain : bytes) (a : bytes) : option bytes :=
  match domain with
  | [] => Some a
  | x :: domain' => array_set pos x a ≫= write_domain (S pos) domain'
  end.

(** The outer loop of [HashDomains], from the [k]-th domain on. *)
Fixpoint hash_domains_from (k : nat) (domains : list string) (a : bytes) : option bytes :=
  match domains with
  | [] => Some a
  | v :: domains' =>
      first6 (Sha3256 (String.list_byte_of_string v)) ≫= λ domain,
      write_domain (k * 6 + 0) domain a ≫= hash_domains_from (S k) domains'
  end.

(** The six bytes that a domain contributes. *)
Definition domain_of (v : string) : bytes :=
  take 6 (Sha3256 (String.list_byte_of_string v)).

(** [HashDomains]; [None] is a panic. *)
Definition HashDomains (domains : list string) : option bytes :=
  if decide (24 / 6 < length domains) then None
  else hash_domains_from 0 domains (replicate 24 Byte.x00).

(** [HashDomainsPrefix]; [None] is a panic. *)
Definition HashDomainsPrefix (domains : list string) : option bytes :=
  if decide (24 / 6 < length domains) then None
  else
    foldl (λ a v,
             a ≫= λ a', first6 (Sha3256 (String.list_byte_of_string v)) ≫= λ domain,
             Some (a' ++ domain))
      (Some []) domains.

End HashDomains.

(** The value of a hexadecimal digit, and the byte of two digits. *)
Definition digit_val (a : Ascii.ascii) : N :=
  match String.index 0 (String a EmptyString) "0123456789abcdef" with
  | Some n => N.of_nat n
  | None => 0
  end.

Fixpoint unhex (s : string) : bytes :=
  match s with
  | String a (String b s') =>
      match Byte.of_N (16 * digit_val a + digit_val b) with
      | Some x => x :: unhex s'
      | None => []
      end
  | _ => []
  end.

End trie.

(** * Scenarios

    The databases and batch tries that the examples below are about. *)

Module mvccdbv2_examples.
Import mvccdbv2.

(** ** A transaction with one prepared DB that has written a key *)

Definition T1 : Tid := TidVal "T1".
Definition key_k : bytes := String.list_byte_of_string "k".
Definition val_v : slice := Some (String.list_byte_of_string "v").

(** [db := NewMVCCDB; db.Begin(); c := db.Prepare(T1); c.Put(k, v)] over an
    empty in-memory storage. *)
Definition dirty_child_db : MVCCDB :=
  let db0 := NewMVCCDB 0 in
  let db1 := (Begin db0).2 in
  let db2 := (Prepare db1 (Some T1)).2 in
  (on_prepared db2 T1 (λ c anc,
     let '(err, c', anc', _) := Put c anc ([] : MemStorage) key_k val_v in
     (err, c', anc'))).2.

(** ** A flat transaction *)

Definition key_a : bytes := String.list_byte_of_string "a".
Definition key_b : bytes := String.list_byte_of_string "b".
Definition val_1 : slice := Some (String.list_byte_of_string "1").
Definition val_2 : slice := Some (String.list_byte_of_string "2").

(** An empty in-memory storage that logs its writes. *)
Definition empty_log : Recorded MemStorage := mkRecorded [] [].

(** Scenario S3 of the specification before its commit: [begin; put(a,1);
    put(b,2); del(a)] on a new root DB. *)
Definition scenario_db : MVCCDB :=
  (run_calls [OnRoot (OpPut key_a val_1); OnRoot (OpPut key_b val_2); OnRoot (OpDel key_a)]
     (Begin (NewMVCCDB 0)).2 empty_log).1.

(** The DB that [Prepare(T1)] hands back on a root DB in a transaction. *)
Definition prepared_T1 : option MVCCDB :=
  (Prepare (Begin (NewMVCCDB 0)).2 (Some T1)).1.1.

(** Scenario S2 of the specification before its rollback, with a prepared DB
    that has written a key of its own: [begin; put(k,v); c = prepare(T1);
    c.put(a,1)]. *)
Definition rollback_db : MVCCDB * Recorded MemStorage :=
  run_calls [OnRoot (OpPut key_k val_v); CallPrepare (Some T1);
             OnPrepared T1 (OpPut key_a val_1)]
    (Begin (NewMVCCDB 0)).2 empty_log.

(** ** A merge that meets the write of a sibling

    Two prepared DBs [T1] and [T2] of one root read [k = v0]; the parent
    table holds a dirty write of [v1] owned by [T1]; [T2] has written [v2]
    over the [v0] it read. *)

Definition T2 : Tid := TidVal "T2".
Definition val_v0 : slice := Some (String.list_byte_of_string "v0").
Definition val_v1 : slice := Some (String.list_byte_of_string "v1").
Definition val_v2 : slice := Some (String.list_byte_of_string "v2").

Definition sibling_write : VersionizedValueItem :=
  mkItem key_k val_v1 T1 false true false 1 val_v0.
Definition late_write : VersionizedValueItem :=
  mkItem key_k val_v2 T2 false true false 1 val_v0.

Definition parent_table : StagingTable := mkStagingTable (TidSelf 0) [sibling_write].
Definition late_table : StagingTable := mkStagingTable T2 [late_write].
Definition late_db : MVCCDB := mkMVCCDB T2 late_table true true true [].

(** ** Two prepared DBs that write one key

    A storage that holds [k = v0] and logs its writes. *)
Definition backend_v0 : Recorded MemStorage := mkRecorded [(key_k, val_v0)] [].


(** Scenario S5 of the specification up to the merge of [c1]: [begin;
    c1 = prepare(T1); c2 = prepare(T2); c1.get(k); c2.get(k); c1.put(k,v1);
    c2.put(k,v2); c1.check_and_update()].  Its tables are [parent_table] and
    [late_table] above. *)
Definition s5_calls : list call :=
  [CallPrepare (Some T1); CallPrepare (Some T2);
   OnPrepared T1 (OpGet key_k); OnPrepared T2 (OpGet key_k);
   OnPrepared T1 (OpPut key_k val_v1); OnPrepared T2 (OpPut key_k val_v2);
   CallCheckAndUpdate T1].
Definition s5_db : MVCCDB := (run_calls s5_calls (Begin (NewMVCCDB 0)).2 backend_v0).1.

(** The same two DBs when [c2] first reads [k] after [c1] has merged: [begin;
    c1 = prepare(T1); c2 = prepare(T2); c1.get(k); c1.put(k,v1);
    c1.check_and_update(); c2.get(k); c2.put(k,v2)]. *)
Definition reread_calls : list call :=
  [CallPrepare (Some T1); CallPrepare (Some T2);
   OnPrepared T1 (OpGet key_k); OnPrepared T1 (OpPut key_k val_v1);
   CallCheckAndUpdate T1;
   OnPrepared T2 (OpGet key_k); OnPrepared T2 (OpPut key_k val_v2)].
Definition reread_db : MVCCDB :=
  (run_calls reread_calls (Begin (NewMVCCDB 0)).2 backend_v0).1.

(** ** A storage that refuses every write *)

(** A storage whose [Put] and [Del] fail and change nothing, and that holds
    no key. *)
Inductive Refusing := refusing.

#[global] Instance Refusing_Storage : Storage Refusing := {
  storage_Get _ _ := (None, Some ErrKeyNotFound);
  storage_Put s _ _ := (s, Some (ErrStorage "read-only"));
  storage_Del s _ := (s, Some (ErrStorage "read-only"));
}.

End mvccdbv2_examples.

Module trie_examples.
Import trie.

(** [tobt] first read [a] and [k]; [bt] has since written [k].  The loop of
    [MergeWith] visits [a], which it records in [bt.initialoplog], and then
    [k], at which it returns [false]. *)
Definition merge_into : BatchTrie MemTrie :=
  left_by (bt_Put hex (NewBatchTrie ([] : MemTrie))
             (String.list_byte_of_string "k") (Some (String.list_byte_of_string "v1"))).

Definition merge_from : BatchTrie MemTrie :=
  left_by (bt_Get hex
             (left_by (bt_Get hex (NewBatchTrie ([] : MemTrie))
                         (String.list_byte_of_string "a")))
             (String.list_byte_of_string "k")).

(** A new batch trie over the empty trie, a batch with one [Put], rolled
    back. *)
Definition rolled_back : BatchTrie MemTrie :=
  bt_RollBack hex
    (left_by (bt_Put hex (bt_BeginBatch (NewBatchTrie ([] : MemTrie)))
                (String.list_byte_of_string "a") (Some (String.list_byte_of_string "1")))).

(** ** A batch on a trie that holds one key *)

Definition bkey_a : bytes := String.list_byte_of_string "a".
Definition bkey_b : bytes := String.list_byte_of_string "b".
Definition bval_1 : slice := Some (String.list_byte_of_string "1").
Definition bval_2 : slice := Some (String.list_byte_of_string "2").
Definition bval_3 : slice := Some (String.list_byte_of_string "3").

(** A trie that holds [a = 1]. *)
Definition stocked : MemTrie := [(bkey_a, bval_1)].

(** [Put(a,2); Put(b,3); Del(a); Get(b)] *)
Definition batch_ops : list (@bt_op) :=
  [BtPut bkey_a bval_2; BtPut bkey_b bval_3; BtDel bkey_a; BtGet bkey_b].

(** The batch trie after [BeginBatch] and these operations. *)
Definition batch_end : BatchTrie MemTrie :=
  left_by (bt_run hex batch_ops (bt_BeginBatch (NewBatchTrie stocked))).

(** A batch trie that has read [a], and one that has written it. *)
Definition reader : BatchTrie MemTrie :=
  left_by (bt_run hex [BtGet bkey_a] (NewBatchTrie stocked)).
Definition writer : BatchTrie MemTrie :=
  left_by (bt_run hex [BtPut bkey_a bval_2] (NewBatchTrie stocked)).

(** ** Domains *)

(** A function with the output length of [hash.Sha3256], for the examples:
    its argument cut or padded with zeros to 32 bytes. *)
Definition padded32 (b : bytes) : bytes := take 32 (b ++ replicate 32 Byte.x00).

End trie_examples.

(** * Properties of the transactional DB *)

Module mvccdbv2_facts.
Import mvccdbv2 mvccdbv2_examples.

(** Induction over the tree of DBs. *)
Lemma MVCCDB_tree_ind (P : MVCCDB → Prop) :
  (∀ t tbl inTx prep dty pdbs,
      Forall (λ p : Tid * MVCCDB, P p.2) pdbs → P (mkMVCCDB t tbl inTx prep dty pdbs)) →
  ∀ db, P db.
Proof.
  intros step. fix self 1. intros [t tbl inTx prep dty pdbs]. apply step.
  induction pdbs as [|[t' pdb] l IHl]; constructor; [apply self | exact IHl].
Qed.

(** [IsPreparedDBDirty] only ever asks the prepared DBs the same question, so
    it answers [false] on every tree. *)
Lemma IsPreparedDBDirty_false db : IsPreparedDBDirty db = false.
Proof.
  induction db as [t tbl inTx prep dty pdbs IH] using MVCCDB_tree_ind. simpl.
  induction IH as [|[t' pdb] l Hpdb _ IHl]; simpl; [done|].
  simpl in Hpdb. by rewrite Hpdb.
Qed.

Lemma dirty_child_db_dirty_descendant :
  ∃ d, prepared_descendant dirty_child_db d ∧ isDirtyDB d = true.
Proof.
  eexists. split.
  - eapply descendant_child. vm_compute. apply list_elem_of_here.
  - reflexivity.
Qed.

(** C1: [IsPreparedDBDirty] answers [false] on a DB whose prepared DB has
    [isDirtyDB = true]: after [Begin], [Prepare(T1)] and a [Put] through the
    prepared DB, that DB is a dirty prepared descendant of the root, and the
    root's [IsPreparedDBDirty] is [false]. *)
Theorem IsPreparedDBDirty_misses_dirty_child :
  (∃ d, prepared_descendant dirty_child_db d ∧ isDirtyDB d = true) ∧
  IsPreparedDBDirty dirty_child_db = false.
Proof.
  split.
  - apply dirty_child_db_dirty_descendant.
  - apply IsPreparedDBDirty_false.
Qed.

(** [Commit] asks [IsPreparedDBDirty], so it never answers
    [ErrPreparedDBIsDirty]. *)
Lemma Commit_not_PreparedDBIsDirty `{Storage St} db (s : St) :
  (Commit db s).1.1 ≠ Some ErrPreparedDBIsDirty.
Proof.
  unfold Commit. rewrite IsPreparedDBDirty_false.
  destruct (isInTransaction db), (isPreparedDB db); simpl; congruence.
Qed.

(** C2: [Commit] on a root DB in a transaction whose prepared DB is dirty
    does not fail with [ErrPreparedDBIsDirty]: after [Begin], [Prepare(T1)]
    and a [Put] through the prepared DB, the root is in a transaction, is not
    prepared, has a dirty prepared descendant, and [Commit] returns no error
    and ends the transaction. *)
Theorem Commit_succeeds_with_dirty_child :
  isInTransaction dirty_child_db = true ∧ isPreparedDB dirty_child_db = false ∧
  (∃ d, prepared_descendant dirty_child_db d ∧ isDirtyDB d = true) ∧
  ∃ db', Commit dirty_child_db ([] : MemStorage) = (None, db', []) ∧
         isInTransaction db' = false.
Proof.
  split; [reflexivity|]. split; [reflexivity|]. split.
  - apply dirty_child_db_dirty_descendant.
  - eexists. split; reflexivity.
Qed.

(** ** Commit *)

Section Commit.
Context `{Storage St}.

Lemma flush_recorded (s : Recorded St) value :
  flush s value =
    if flushed value
    then mkRecorded (apply_call (backend s) (call_of value)) (calls s ++ [call_of value])
    else s.
Proof.
  unfold flush, flushed, call_of, isDefault.
  destruct (is_default value), (dirty value), (deleted value); simpl; try done.
  - unfold delFromStorage; simpl. by destruct (storage_Del (backend s) (key value)).
  - unfold putToStorage; simpl.
    by destruct (storage_Put (backend s) (key value) (val value)).
Qed.

Lemma foldl_flush_recorded (l : list VersionizedValueItem) (s : Recorded St) :
  let writes := call_of <$> filter (λ value, flushed value = true) l in
  foldl flush s l = mkRecorded (foldl apply_call (backend s) writes) (calls s ++ writes).
Proof.
  revert s. induction l as [|value l IH]; intros s; simpl.
  - rewrite app_nil_r. by destruct s.
  - rewrite IH, flush_recorded, filter_cons.
    destruct (flushed value) eqn:Hf.
    + rewrite decide_True by done. simpl. by rewrite <- app_assoc.
    + rewrite decide_False by congruence. done.
Qed.

(** C5: a [Commit] that succeeds sends the storage one write for each record
    of the staging table that is neither default nor clean, in the order of
    the records, a delete of the key when the record is deleted and a put of
    its key and value otherwise, and no other write; the DB is then neither
    in a transaction nor dirty. *)
Theorem Commit_flushes_dirty_records db (s s' : Recorded St) db' :
  Commit db s = (None, db', s') →
  let writes :=
    call_of <$> filter (λ value, flushed value = true)
                  (versionizedValues (stagingTable db)) in
  calls s' = calls s ++ writes ∧
  backend s' = foldl apply_call (backend s) writes ∧
  (∀ c, c ∈ writes ↔
        ∃ value, value ∈ versionizedValues (stagingTable db) ∧
                 is_default value = false ∧ dirty value = true ∧
                 c = if deleted value then CallDel (key value)
                     else CallPut (key value) (val value)) ∧
  isInTransaction db' = false ∧ isDirtyDB db' = false ∧
  stagingTable db' = stagingTable db ∧ preparedDBs db' = preparedDBs db.
Proof.
  unfold Commit.
  destruct (isInTransaction db) eqn:HinTx; simpl; [|congruence].
  destruct (isPreparedDB db) eqn:Hprep; simpl; [congruence|].
  destruct (IsPreparedDBDirty db); [congruence|].
  intros [= <- <-]. unfold GetVersionizedValues.
  rewrite foldl_flush_recorded. simpl. repeat split; try done.
  - intros Hc. apply list_elem_of_fmap in Hc as (value & -> & Hvalue).
    apply list_elem_of_filter in Hvalue as [Hf Hin].
    exists value. unfold flushed in Hf.
    destruct (is_default value), (dirty value); try done.
  - intros (value & Hin & Hdef & Hdirty & ->).
    apply list_elem_of_fmap. exists value. split; [done|].
    apply list_elem_of_filter. split; [|done].
    unfold flushed. by rewrite Hdef, Hdirty.
Qed.

End Commit.

Lemma Commit_flushes_dirty_records_witness :
  calls (Commit scenario_db empty_log).2 = [CallDel key_a; CallPut key_b val_2] ∧
  backend (Commit scenario_db empty_log).2 = [(key_b, val_2)].
Proof.
  destruct (Commit_flushes_dirty_records scenario_db empty_log
              (Commit scenario_db empty_log).2 (Commit scenario_db empty_log).1.2
              eq_refl) as (Hcalls & Hbackend & _).
  split; [exact Hcalls | exact Hbackend].
Defined.

(** ** Outside a transaction *)

Section Passthrough.
Context `{Storage St}.

Lemma do_op_passthrough o db anc (s : St) :
  isInTransaction db = false →
  do_op o db anc s = ((direct_op o s).1, db, anc, (direct_op o s).2).
Proof.
  intros HinTx. destruct o as [k|k v|k]; simpl.
  - unfold Get, getFromStorage. by rewrite HinTx.
  - unfold Put, putToStorage. rewrite HinTx. simpl. by destruct (storage_Put s k v).
  - unfold Del, delFromStorage. rewrite HinTx. simpl. by destruct (storage_Del s k).
Qed.

(** C6: on a DB that is not in a transaction, [Get], [Put] and [Del] return
    what the storage's own [Get], [Put] and [Del] return and leave the storage
    in the state those leave it in, call after call; the DB, its staging
    table and the ancestor tables stay as they were, and the results do not
    depend on them. *)
Theorem passthrough_outside_transaction db anc (s : St) :
  isInTransaction db = false →
  (∀ k, Get db anc s k = (storage_Get s k, db, anc, s)) ∧
  (∀ k v, Put db anc s k v = ((storage_Put s k v).2, db, anc, (storage_Put s k v).1)) ∧
  (∀ k, Del db anc s k = ((storage_Del s k).2, db, anc, (storage_Del s k).1)) ∧
  (∀ ops, run_ops ops db anc s = ((direct_ops ops s).1, db, anc, (direct_ops ops s).2)).
Proof.
  intros HinTx. repeat split.
  - intros k. unfold Get, getFromStorage. by rewrite HinTx.
  - intros k v. unfold Put, putToStorage. rewrite HinTx. simpl.
    by destruct (storage_Put s k v).
  - intros k. unfold Del, delFromStorage. rewrite HinTx. simpl.
    by destruct (storage_Del s k).
  - intros ops. revert s. induction ops as [|o ops IH]; intros s; simpl; [done|].
    rewrite do_op_passthrough by done. rewrite IH.
    destruct (direct_op o s) as [r s1]. simpl. by destruct (direct_ops ops s1).
Qed.

End Passthrough.

(** Scenario S1 of the specification on a fresh DB: [put(k,v); get(k);
    del(k); get(k)]. *)
Lemma passthrough_outside_transaction_witness :
  (run_ops [OpPut key_k val_v; OpGet key_k; OpDel key_k; OpGet key_k]
     (NewMVCCDB 0) [] ([] : MemStorage)).1.1.1
  = [(None, None); (val_v, None); (None, None); (None, Some ErrKeyNotFound)].
Proof.
  destruct (passthrough_outside_transaction (NewMVCCDB 0) [] ([] : MemStorage) eq_refl)
    as (_ & _ & _ & Hrun).
  rewrite Hrun. reflexivity.
Defined.

(** ** Reads inside a transaction *)

Section Reads.
Context `{Storage St}.

(** C7: on a DB in a transaction, when the staging table hands [Get] a
    versionized value, [Get] answers [ErrKeyNotFound] exactly when that value
    is deleted or has a nil [val], and answers its [val] without error
    otherwise; an error of the staging table is handed on. *)
Theorem Get_in_transaction db anc (s : St) k :
  isInTransaction db = true →
  match (tbl_Get (stagingTable db) anc s k).1.1 with
  | inr value =>
      ((Get db anc s k).1.1.1.2 = Some ErrKeyNotFound ↔
         deleted value = true ∨ val value = None) ∧
      (¬ (deleted value = true ∨ val value = None) →
         (Get db anc s k).1.1.1 = (val value, None))
  | inl err => (Get db anc s k).1.1.1 = (None, Some err)
  end.
Proof.
  intros HinTx. unfold Get. rewrite HinTx. simpl.
  destruct (tbl_Get (stagingTable db) anc s k) as [[[err|value] tbl'] anc']; simpl; [done|].
  destruct (deleted value) eqn:Hdel; simpl.
  - split; [|intros []; by left]. split; [by left | done].
  - destruct (val value) as [b|] eqn:Hval; simpl.
    + split; [|done]. split; [done|]. intros [|]; done.
    + split; [|intros []; by right]. split; [by right | done].
Qed.

Lemma find_item_key k l v : find_item k l = Some v → key v = k.
Proof.
  induction l as [|v' l IH]; simpl; [done|].
  destruct (decide (key v' = k)); [by intros [= <-] | exact IH].
Qed.

Lemma find_store_item new l : find_item (key new) (store_item new l) = Some new.
Proof.
  induction l as [|v l IH]; simpl.
  - by rewrite decide_True.
  - destruct (decide (key v = key new)); simpl.
    + by rewrite decide_True.
    + by rewrite decide_False.
Qed.

(** The staging table answers a read of [k] with a record of [k]. *)
Lemma tbl_Get_key tbl anc (s : St) k v tbl' anc' :
  tbl_Get tbl anc s k = (inr v, tbl', anc') → key v = k.
Proof.
  revert tbl v tbl' anc'. induction anc as [|parent up IH]; intros tbl v tbl' anc'; simpl.
  - destruct (find_item k (versionizedValues tbl)) as [v0|] eqn:Hfind.
    + intros [= <- <- <-]. by eapply find_item_key.
    + destruct (loadFromStorage s k); [done|]. by intros [= <- <- <-].
  - destruct (find_item k (versionizedValues tbl)) as [v0|] eqn:Hfind.
    + intros [= <- <- <-]. by eapply find_item_key.
    + destruct (tbl_Get parent up s k) as [[[e|pv] parent'] up']; [done|].
      by intros [= <- <- <-].
Qed.

(** Inside a transaction a [Get] after a [Put] of a non-nil value answers
    that value. *)
Lemma Get_after_Put db anc (s : St) k b db1 anc1 s1 :
  isInTransaction db = true →
  Put db anc s k (Some b) = (None, db1, anc1, s1) →
  (Get db1 anc1 s1 k).1.1.1 = (Some b, None).
Proof.
  intros HinTx. unfold Put, tbl_Put, tbl_write. rewrite HinTx. simpl.
  destruct (tbl_Get (stagingTable db) anc s k) as [[[e|cur] tbl1] anc'] eqn:Hget;
    simpl; [done|].
  intros [= <- <- <-]. apply tbl_Get_key in Hget.
  unfold Get. simpl. rewrite HinTx. simpl.
  assert (Hfind : find_item k (store_item (written cur (Some b) false)
                                 (versionizedValues tbl1))
                  = Some (written cur (Some b) false)).
  { rewrite <- Hget at 1.
    replace (key cur) with (key (written cur (Some b) false))
      by (unfold written; by destruct (is_default cur)).
    apply find_store_item. }
  assert (Hread : tbl_Get (set_values tbl1 (store_item (written cur (Some b) false)
                                              (versionizedValues tbl1))) anc' s k
                  = (inr (written cur (Some b) false),
                     set_values tbl1 (store_item (written cur (Some b) false)
                                        (versionizedValues tbl1)), anc')).
  { destruct anc'; simpl; by rewrite Hfind. }
  rewrite Hread. unfold written. by destruct (is_default cur).
Qed.

End Reads.

(** After [begin; put(a,1); put(b,2); del(a)]: [b] reads [2], [a] is
    deleted. *)
Lemma Get_in_transaction_witness :
  (Get scenario_db [] empty_log key_b).1.1.1 = (val_2, None) ∧
  (Get scenario_db [] empty_log key_a).1.1.1.2 = Some ErrKeyNotFound.
Proof.
  split.
  - pose proof (Get_in_transaction scenario_db [] empty_log key_b eq_refl) as Hb.
    apply Hb. intros [|]; discriminate.
  - pose proof (Get_in_transaction scenario_db [] empty_log key_a eq_refl) as Ha.
    apply Ha. by left.
Defined.

(** ** Begin on a prepared DB *)

(** The guard of [Begin] for prepared DBs fires only on a DB that is
    prepared and not in a transaction. *)
Lemma Begin_prepared_error db :
  (Begin db).1 = Some ErrUnsupportedBeginInPreparedDB ↔
  isInTransaction db = false ∧ isPreparedDB db = true.
Proof.
  unfold Begin. destruct (isInTransaction db), (isPreparedDB db); simpl; split;
    try done; by intros [].
Qed.

(** C8: [Begin] on a DB that [Prepare] hands back does not answer the error
    of a prepared DB.  Such a DB is prepared and in a transaction; [Begin]
    tests [isInTransaction] first and answers
    [ErrUnsupportedNestedTransaction], never
    [ErrUnsupportedBeginInPreparedDB], and leaves the DB as it was, while
    [Commit] and [RollBack] on the same DB answer
    [ErrUnsupportedCommitInPreparedDB] and
    [ErrUnsupportedRollBackInPreparedDB]. *)
Theorem Begin_on_prepared `{Storage St} (s : St) parent t c parent' :
  Prepare parent t = ((Some c, None), parent') →
  isInTransaction c = true ∧ isPreparedDB c = true ∧
  Begin c = (Some ErrUnsupportedNestedTransaction, c) ∧
  (Begin c).1 ≠ Some ErrUnsupportedBeginInPreparedDB ∧
  Commit c s = (Some ErrUnsupportedCommitInPreparedDB, c, s) ∧
  RollBack c s = (Some ErrUnsupportedRollBackInPreparedDB, c, s).
Proof.
  unfold Prepare.
  destruct (isInTransaction parent); simpl; [|congruence].
  destruct t as [t|]; [|congruence].
  destruct (lookup_prepared t (preparedDBs parent)); [congruence|].
  destruct (tbl_Prepare _ t); [congruence|].
  intros [= <- <-]. by repeat split.
Qed.

(** The DB that [Prepare(T1)] hands back on a root DB in a transaction. *)
Lemma Begin_on_prepared_witness :
  ∃ c, prepared_T1 = Some c ∧
       Begin c = (Some ErrUnsupportedNestedTransaction, c) ∧
       Commit c empty_log = (Some ErrUnsupportedCommitInPreparedDB, c, empty_log).
Proof.
  eexists. split; [reflexivity|].
  destruct (Begin_on_prepared empty_log (Begin (NewMVCCDB 0)).2 (Some T1) _ _ eq_refl)
    as (_ & _ & Hbegin & _ & Hcommit & _).
  by split.
Defined.

(** ** Reset and RollBack *)

Lemma purgeTables_cleared db : purgeTables (cleared db) = cleared db.
Proof.
  induction db as [t tbl inTx prep dty pdbs IH] using MVCCDB_tree_ind. simpl.
  f_equal. rewrite map_map. apply map_ext_Forall.
  eapply Forall_impl; [exact IH|]. intros [t' pdb] Hpdb. simpl in *. by rewrite Hpdb.
Qed.

(** [Reset] on a DB built by [Prepare] succeeds and clears the whole tree
    below it. *)
Lemma Reset_prepared_tree db : prepared_tree db → Reset db = (None, cleared db).
Proof.
  induction db as [t tbl inTx prep dty pdbs IH] using MVCCDB_tree_ind.
  intros Htree. inversion Htree as [t0 tbl0 dty0 pdbs0 Hpdbs]; subst. simpl.
  f_equal. unfold set_isDirtyDB. simpl. f_equal.
  rewrite map_map. apply map_ext_Forall.
  rewrite Forall_forall in IH, Hpdbs. apply Forall_forall.
  intros [t' pdb] Hin. simpl.
  pose proof (IH _ Hin (Hpdbs _ Hin)) as Hreset. simpl in Hreset.
  rewrite Hreset. simpl. by rewrite purgeTables_cleared.
Qed.

Lemma cleared_prepared_tree db : prepared_tree db → prepared_tree (cleared db).
Proof.
  induction db as [t tbl inTx prep dty pdbs IH] using MVCCDB_tree_ind.
  intros Htree. inversion Htree as [t0 tbl0 dty0 pdbs0 Hpdbs]; subst. simpl.
  constructor. rewrite Forall_map.
  rewrite Forall_forall in IH, Hpdbs. apply Forall_forall.
  intros [t' pdb] Hin. simpl. exact (IH _ Hin (Hpdbs _ Hin)).
Qed.

(** Below a cleared DB every table is empty and no DB is dirty. *)
Lemma cleared_descendant db d :
  prepared_descendant (cleared db) d →
  versionizedValues (stagingTable d) = [] ∧ isDirtyDB d = false.
Proof.
  revert d. induction db as [t tbl inTx prep dty pdbs IH] using MVCCDB_tree_ind.
  assert (Hchild : ∀ t' pdb',
    (t', pdb') ∈ preparedDBs (cleared (mkMVCCDB t tbl inTx prep dty pdbs)) →
    ∃ pdb, (t', pdb) ∈ pdbs ∧ pdb' = cleared pdb).
  { simpl. intros t' pdb' Hin. apply list_elem_of_fmap in Hin as ([t0 pdb] & [= -> ->] & Hin).
    by exists pdb. }
  rewrite Forall_forall in IH.
  intros d Hd. inversion Hd as [db0 t' pdb' Hin | db0 t' pdb' d0 Hin Hbelow]; subst.
  - apply Hchild in Hin as (pdb & Hin & ->). by destruct pdb.
  - apply Hchild in Hin as (pdb & Hin & ->). exact (IH _ Hin d Hbelow).
Qed.

Section Rollback.
Context `{Storage St}.

(** [RollBack] on a root DB in a transaction. *)
Lemma RollBack_root db (s : St) :
  isInTransaction db = true → root_db db →
  RollBack db s = (None, set_isInTransaction (cleared db) false, s).
Proof.
  intros HinTx [Hprep Hpdbs]. unfold RollBack. rewrite HinTx, Hprep. simpl.
  destruct db as [t tbl inTx prep dty pdbs]. simpl in *.
  unfold set_isDirtyDB, set_isInTransaction, set_preparedDBs. simpl.
  do 2 f_equal. f_equal.
  rewrite map_map. apply map_ext_Forall.
  eapply Forall_impl; [exact Hpdbs|]. intros [t' pdb] Hpdb. simpl in *.
  rewrite Reset_prepared_tree by done. simpl. by rewrite purgeTables_cleared.
Qed.

(** Inside a transaction a data operation keeps the storage, the flags
    [isInTransaction] and [isPreparedDB] and the prepared DBs. *)
Lemma do_op_in_transaction o db anc (s : St) :
  isInTransaction db = true →
  ∃ r tbl' dty anc',
    do_op o db anc s =
      (r, mkMVCCDB (tid db) tbl' true (isPreparedDB db) dty (preparedDBs db), anc', s).
Proof.
  intros HinTx. destruct o as [k|k v|k]; simpl.
  - unfold Get. rewrite HinTx. simpl.
    destruct (tbl_Get (stagingTable db) anc s k) as [[[err|value] tbl'] anc']; simpl.
    + unfold set_stagingTable. rewrite HinTx. by eexists _, _, _, _.
    + unfold set_stagingTable. rewrite HinTx.
      destruct (deleted value || bool_decide (val value = None)); by eexists _, _, _, _.
  - unfold Put. rewrite HinTx. simpl.
    destruct (tbl_Put (stagingTable db) anc s k v) as [[[err|value] tbl'] anc']; simpl;
      unfold set_isDirtyDB, set_stagingTable; simpl; rewrite HinTx; by eexists _, _, _, _.
  - unfold Del. rewrite HinTx. simpl.
    destruct (tbl_Del (stagingTable db) anc s k) as [[[err|value] tbl'] anc']; simpl;
      unfold set_isDirtyDB, set_stagingTable; simpl; rewrite HinTx; by eexists _, _, _, _.
Qed.

Lemma lookup_prepared_elem t l pdb :
  lookup_prepared t l = Some pdb → (t, pdb) ∈ l.
Proof.
  induction l as [|[t' pdb'] l IH]; simpl; [done|].
  destruct (decide (t' = t)) as [->|].
  - intros [= ->]. apply list_elem_of_here.
  - intros Hl. apply list_elem_of_further. by apply IH.
Qed.

Lemma replace_prepared_Forall (P : Tid * MVCCDB → Prop) t pdb l :
  Forall P l → P (t, pdb) → Forall P (replace_prepared t pdb l).
Proof.
  intros Hl Hpdb. unfold replace_prepared. rewrite Forall_map.
  eapply Forall_impl; [exact Hl|]. intros p Hp. simpl. by destruct (decide (p.1 = t)).
Qed.

(** A call through a handle that leaves the prepared DB well formed leaves
    the root in its transaction and well formed. *)
Lemma on_prepared_in_transaction {R : Type} db t
    (f : MVCCDB → list StagingTable → R * MVCCDB * list StagingTable) :
  isInTransaction db = true → root_db db →
  (∀ pdb anc, prepared_tree pdb → prepared_tree (f pdb anc).1.2) →
  isInTransaction (on_prepared db t f).2 = true ∧ root_db (on_prepared db t f).2.
Proof.
  intros HinTx [Hprep Hpdbs] Hf. unfold on_prepared.
  destruct (lookup_prepared t (preparedDBs db)) as [pdb|] eqn:Hl; [|done].
  assert (Hpdb : prepared_tree pdb).
  { apply lookup_prepared_elem in Hl. rewrite Forall_forall in Hpdbs.
    exact (Hpdbs _ Hl). }
  specialize (Hf pdb [stagingTable db] Hpdb).
  destruct (f pdb [stagingTable db]) as [[r pdb'] anc']. simpl in *.
  split; [done|]. split; [done|]. by apply replace_prepared_Forall.
Qed.

(** Every call a client makes inside the transaction of a root DB leaves the
    storage as it was and the root in its transaction. *)
Lemma do_call_in_transaction c db (s : St) :
  isInTransaction db = true → root_db db →
  (do_call c db s).2 = s ∧
  isInTransaction (do_call c db s).1 = true ∧ root_db (do_call c db s).1.
Proof.
  intros HinTx Hroot. destruct c as [o|t o|t|t|t]; simpl.
  - destruct (do_op_in_transaction o db [] s HinTx) as (r & tbl' & dty & anc' & ->).
    simpl. destruct Hroot as [Hprep Hpdbs]. repeat split; done.
  - set (f := λ pdb anc,
        let '(r, pdb', anc', s') := do_op o pdb anc s in (s', pdb', anc')).
    assert (Hf : ∀ pdb anc, prepared_tree pdb →
              (f pdb anc).1.1 = s ∧ prepared_tree (f pdb anc).1.2).
    { intros pdb anc Hpdb. unfold f.
      inversion Hpdb as [t0 tbl0 dty0 pdbs0 Hpdbs0]; subst.
      edestruct (do_op_in_transaction o) as (r & tbl' & dty & anc' & ->); [reflexivity|].
      simpl. split; [done|]. by constructor. }
    destruct (on_prepared_in_transaction db t f HinTx Hroot) as [HinTx' Hroot'].
    { intros pdb anc Hpdb. by apply Hf. }
    destruct (on_prepared db t f) as [r db'] eqn:Hon. simpl in *.
    split; [|done]. unfold on_prepared in Hon.
    destruct (lookup_prepared t (preparedDBs db)) as [pdb|] eqn:Hl.
    + assert (Hpdb : prepared_tree pdb).
      { apply lookup_prepared_elem in Hl. destruct Hroot as [_ Hpdbs].
        rewrite Forall_forall in Hpdbs. exact (Hpdbs _ Hl). }
      destruct (Hf pdb [stagingTable db] Hpdb) as [Hs _].
      destruct (f pdb [stagingTable db]) as [[s' pdb'] anc']. simpl in *.
      by injection Hon as <- <-.
    + by injection Hon as <- <-.
  - split; [done|]. unfold Prepare. rewrite HinTx. simpl.
    destruct t as [t|]; [|done].
    destruct (lookup_prepared t (preparedDBs db)); [done|].
    destruct (tbl_Prepare _ t) as [err|tbl]; [done|]. simpl.
    destruct Hroot as [Hprep Hpdbs]. split; [done|]. split; [done|]. simpl.
    apply Forall_app. split; [done|]. repeat constructor.
  - split; [done|]. apply on_prepared_in_transaction; [done..|].
    intros pdb anc Hpdb. inversion Hpdb as [t0 tbl0 dty0 pdbs0 Hpdbs0]; subst.
    unfold CheckAndUpdate. simpl.
    destruct (tbl_MergeToParent tbl0 anc) as [[[err|ret] tbl'] anc']; simpl;
      by constructor.
  - split; [done|]. apply on_prepared_in_transaction; [done..|].
    intros pdb anc Hpdb. rewrite Reset_prepared_tree by done. simpl.
    by apply cleared_prepared_tree.
Qed.

Lemma run_calls_in_transaction cs db (s : St) :
  isInTransaction db = true → root_db db →
  (run_calls cs db s).2 = s ∧
  isInTransaction (run_calls cs db s).1 = true ∧ root_db (run_calls cs db s).1.
Proof.
  unfold run_calls. revert db s. induction cs as [|c cs IH]; intros db s HinTx Hroot.
  - done.
  - simpl. destruct (do_call_in_transaction c db s HinTx Hroot) as (Hs & HinTx' & Hroot').
    destruct (do_call c db s) as [db1 s1]. simpl in *. subst s1.
    exact (IH db1 s HinTx' Hroot').
Qed.

End Rollback.

(** C9: [RollBack] on a root DB in a transaction succeeds; every prepared DB
    registered in it is left as its own [Reset] leaves it, with the whole tree
    below the root holding no record and no dirty flag; the root's staging
    table is empty, [isInTransaction] and [isDirtyDB] are false; the storage,
    with the log of the writes it received, is the one handed in.  When the
    DB was brought to this state by [Begin] and any calls made inside the
    transaction, on the root or through the handles of prepared DBs, that
    storage is the one [Begin] found. *)
Theorem RollBack_resets_and_keeps_backend `{Storage St} db (s : Recorded St) :
  isInTransaction db = true → root_db db →
  ∃ db',
    RollBack db s = (None, db', s) ∧
    Forall2 (λ p p' : Tid * MVCCDB, p'.1 = p.1 ∧ Reset p.2 = (None, p'.2))
      (preparedDBs db) (preparedDBs db') ∧
    (∀ d, prepared_descendant db' d →
       versionizedValues (stagingTable d) = [] ∧ isDirtyDB d = false) ∧
    versionizedValues (stagingTable db') = [] ∧
    isInTransaction db' = false ∧ isDirtyDB db' = false ∧
    (∀ db0 s0 cs,
       isInTransaction db0 = false → root_db db0 →
       run_calls cs (Begin db0).2 s0 = (db, s) →
       calls s = calls s0 ∧ backend s = backend s0).
Proof.
  intros HinTx Hroot. exists (set_isInTransaction (cleared db) false).
  split; [by apply RollBack_root|]. split; [|split; [|split; [|split; [|split]]]].
  - destruct Hroot as [_ Hpdbs]. destruct db as [t tbl inTx prep dty pdbs]. simpl in *.
    clear HinTx. induction Hpdbs as [|[t' pdb] l Hpdb Hl IH]; simpl; constructor.
    + simpl in *. split; [done|]. by apply Reset_prepared_tree.
    + exact IH.
  - intros d Hd. apply (cleared_descendant db).
    inversion Hd as [db0 t' pdb' Hin | db0 t' pdb' d0 Hin Hbelow]; subst.
    + eapply descendant_child. destruct db; exact Hin.
    + eapply descendant_below; [|exact Hbelow]. destruct db; exact Hin.
  - by destruct db.
  - by destruct db.
  - by destruct db.
  - intros db0 s0 cs HinTx0 [Hprep0 Hpdbs0] Hrun.
    assert (Hbegin : Begin db0 = (None, set_isInTransaction db0 true)).
    { unfold Begin. by rewrite HinTx0, Hprep0. }
    rewrite Hbegin in Hrun. simpl in Hrun.
    destruct (run_calls_in_transaction cs (set_isInTransaction db0 true) s0) as (Hs & _);
      [done | by split |].
    rewrite Hrun in Hs. simpl in Hs. by subst.
Qed.

Lemma RollBack_resets_and_keeps_backend_witness :
  (RollBack rollback_db.1 rollback_db.2).2 = empty_log ∧
  versionizedValues (stagingTable (RollBack rollback_db.1 rollback_db.2).1.2) = [].
Proof.
  assert (Hroot : root_db rollback_db.1).
  { split; [reflexivity|]. vm_compute. repeat constructor. }
  destruct (RollBack_resets_and_keeps_backend rollback_db.1 rollback_db.2 eq_refl Hroot)
    as (db' & Hrb & _ & _ & Htbl & _ & _ & Hbackend).
  rewrite Hrb. simpl. split; [|exact Htbl].
  destruct (Hbackend (NewMVCCDB 0) empty_log
              [OnRoot (OpPut key_k val_v); CallPrepare (Some T1);
               OnPrepared T1 (OpPut key_a val_1)] eq_refl) as [Hcalls Hstore].
  - split; [reflexivity | constructor].
  - reflexivity.
  - destruct (rollback_db.2) as [b c]. simpl in *. by subst.
Defined.

(** ** Merging a prepared DB into its parent *)




Lemma find_item_elem k l v : find_item k l = Some v → v ∈ l.
Proof.
  induction l as [|v' l IH]; simpl; [done|].
  destruct (decide (key v' = k)).
  - intros [= <-]. apply list_elem_of_here.
  - intros Hl. apply list_elem_of_further. by apply IH.
Qed.

Lemma store_item_Forall (P : VersionizedValueItem → Prop) new l :
  P new → Forall P l → Forall P (store_item new l).
Proof.
  intros Hnew Hl. induction Hl as [|v l Hv Hl IH]; simpl.
  - by constructor.
  - destruct (decide (key v = key new)); by constructor.
Qed.

Lemma set_stagingTable_same db : set_stagingTable db (stagingTable db) = db.
Proof. by destruct db. Qed.

(** A failing merge hands back the child table and the ancestor tables it
    was given. *)
Lemma tbl_MergeToParent_fails tbl anc err tbl' anc' :
  tbl_MergeToParent tbl anc = (inl err, tbl', anc') → tbl' = tbl ∧ anc' = anc.
Proof.
  unfold tbl_MergeToParent. destruct anc as [|parent up]; [by intros [= <- <- <-]|].
  destruct (first_conflict _ _ _); [by intros [= <- <- <-] | done].
Qed.

(** C3: a merge that fails leaves the parent table, the tables above it and
    the child table as they were before the call, at the level of the staging
    table and of [CheckAndUpdate], which then also leaves the DB and its
    [isDirtyDB] as they were; [CheckAndUpdate] clears [isDirtyDB] when the
    merge succeeds. *)
Theorem merge_failure_changes_nothing db anc :
  (∀ err, (tbl_MergeToParent (stagingTable db) anc).1.1 = inl err →
     tbl_MergeToParent (stagingTable db) anc = (inl err, stagingTable db, anc)) ∧
  match (CheckAndUpdate db anc).1.1.2 with
  | Some err => CheckAndUpdate db anc = (([], Some err), db, anc)
  | None =>
      isDirtyDB (CheckAndUpdate db anc).1.2 = false ∧
      ∃ ret, (tbl_MergeToParent (stagingTable db) anc).1.1 = inr ret
  end.
Proof.
  split.
  - intros err Herr.
    destruct (tbl_MergeToParent (stagingTable db) anc) as [[r tbl'] anc'] eqn:Hm.
    simpl in Herr. subst r. by destruct (tbl_MergeToParent_fails _ _ _ _ _ Hm) as [-> ->].
  - unfold CheckAndUpdate.
    destruct (isInTransaction db); simpl; [|done].
    destruct (isPreparedDB db); simpl; [|done].
    destruct (tbl_MergeToParent (stagingTable db) anc) as [[[err|ret] tbl'] anc'] eqn:Hm;
      simpl.
    + destruct (tbl_MergeToParent_fails _ _ _ _ _ Hm) as [-> ->].
      by rewrite set_stagingTable_same.
    + split; [done|]. by exists ret.
Qed.



Lemma merge_failure_changes_nothing_witness :
  tbl_MergeToParent late_table [parent_table] =
    (inl (ErrConflictWithSibling T1), late_table, [parent_table]) ∧
  CheckAndUpdate late_db [parent_table] =
    (([], Some (ErrConflictWithSibling T1)), late_db, [parent_table]).
Proof.
  destruct (merge_failure_changes_nothing late_db [parent_table]) as [Htbl Hdb].
  split.
  - exact (Htbl (ErrConflictWithSibling T1) eq_refl).
  - exact Hdb.
Defined.


(** Scenario S5 of the specification in full: before its merge [c2] is the
    DB [late_db]; the merge of [c2] is refused with the TID of [c1], and
    after [c2.reset()] the commit writes [k = v1];
    and property 7 of §8: when [c2] read [k] after the merge of [c1], its
    merge succeeds, names [T1] as overwritten, and the commit writes
    [k = v2]. *)
Lemma scenario_S5 :
  lookup_prepared T2 (preparedDBs s5_db) = Some late_db ∧
  (on_prepared s5_db T2 CheckAndUpdate).1
    = Some ([], Some (ErrConflictWithSibling T1)) ∧
  backend (Commit (run_calls [CallReset T2] s5_db backend_v0).1 backend_v0).2
    = [(key_k, val_v1)] ∧
  (on_prepared reread_db T2 CheckAndUpdate).1 = Some ([T1], None) ∧
  backend (Commit (on_prepared reread_db T2 CheckAndUpdate).2 backend_v0).2
    = [(key_k, val_v2)].
Proof. repeat split; reflexivity. Qed.

End mvccdbv2_facts.

(** * Properties of the batch trie *)

Module trie_facts.
Import trie trie_examples.

Section Rollback.
Context `{Trie T}.
Variable Hex : bytes → string.

Lemma bt_RollBack_nil_oplogs (bt : BatchTrie T) : nil_oplogs (bt_RollBack Hex bt).
Proof. by split. Qed.

(** [Get] on a batch trie whose logs are nil panics at its first
    assignment. *)
Lemma bt_Get_nil_oplogs (bt : BatchTrie T) k :
  nil_oplogs bt → bt_Get Hex bt k = Panics bt.
Proof.
  intros [Hinit Hfin]. unfold bt_Get. destruct (trie_Get (trie bt) k) as [val err].
  by rewrite Hinit.
Qed.

(** [Put] on a batch trie whose logs are nil: the error of the trie's [Put]
    if it has one, a panic otherwise; the logs stay nil. *)
Lemma bt_Put_nil_oplogs (bt : BatchTrie T) k v :
  nil_oplogs bt →
  let bt1 := mkBatchTrie (trie_Put (trie bt) k v).1 (changelog bt) (batching bt) None None in
  bt_Put Hex bt k v =
    match (trie_Put (trie bt) k v).2.2 with
    | Some e => Returns (None, Some e) bt1
    | None => Panics bt1
    end.
Proof.
  intros [Hinit Hfin]. unfold bt_Put. destruct (trie_Get (trie bt) k) as [old getErr].
  destruct (trie_Put (trie bt) k v) as [t' [rootHash [e|]]]; simpl;
    rewrite Hinit, Hfin; [done|]. by destruct getErr.
Qed.

Lemma bt_Del_nil_oplogs (bt : BatchTrie T) k :
  nil_oplogs bt →
  let bt1 := mkBatchTrie (trie_Del (trie bt) k).1 (changelog bt) (batching bt) None None in
  bt_Del Hex bt k =
    match (trie_Del (trie bt) k).2.2 with
    | Some e => Returns (None, Some e) bt1
    | None => Panics bt1
    end.
Proof.
  intros [Hinit Hfin]. unfold bt_Del. destruct (trie_Get (trie bt) k) as [old getErr].
  destruct (trie_Del (trie bt) k) as [t' [rootHash [e|]]]; simpl;
    rewrite Hinit, Hfin; [done|]. by destruct getErr.
Qed.

(** C10, amended: [RollBack] leaves [initialoplog] and [finaloplog] nil, and
    no [Get], [Put] or [Del] makes them a map again.  On a batch trie with
    nil logs, for every key, [Get] panics on its assignment to
    [initialoplog]; [Put] and [Del] panic on the same assignment whenever the
    [Put] or [Del] of the trie returns no error, and return that error,
    without an assignment, when it returns one. *)
Theorem RollBack_nils_oplogs (bt : BatchTrie T) :
  nil_oplogs (bt_RollBack Hex bt) ∧
  ∀ bt' : BatchTrie T, nil_oplogs bt' →
    (∀ k, bt_Get Hex bt' k = Panics bt') ∧
    (∀ k v, nil_oplogs (left_by (bt_Put Hex bt' k v)) ∧
            (panics (bt_Put Hex bt' k v) ↔ (trie_Put (trie bt') k v).2.2 = None) ∧
            (∀ e, (trie_Put (trie bt') k v).2.2 = Some e →
                  ∃ bt'', bt_Put Hex bt' k v = Returns (None, Some e) bt'')) ∧
    (∀ k, nil_oplogs (left_by (bt_Del Hex bt' k)) ∧
          (panics (bt_Del Hex bt' k) ↔ (trie_Del (trie bt') k).2.2 = None) ∧
          (∀ e, (trie_Del (trie bt') k).2.2 = Some e →
                ∃ bt'', bt_Del Hex bt' k = Returns (None, Some e) bt'')).
Proof.
  split; [apply bt_RollBack_nil_oplogs|].
  intros bt' Hnil. split; [|split].
  - intros k. by apply bt_Get_nil_oplogs.
  - intros k v. rewrite (bt_Put_nil_oplogs bt' k v Hnil).
    destruct ((trie_Put (trie bt') k v).2.2) as [e|]; simpl.
    + split; [done|]. split; [done|]. intros e' [= <-]. by eexists.
    + split; [done|]. split; [done|]. done.
  - intros k. rewrite (bt_Del_nil_oplogs bt' k Hnil).
    destruct ((trie_Del (trie bt') k).2.2) as [e|]; simpl.
    + split; [done|]. split; [done|]. intros e' [= <-]. by eexists.
    + split; [done|]. split; [done|]. done.
Qed.

End Rollback.

(** ** MergeWith *)

Section MergeWith.
Context `{Trie T}.
Variable Hex : bytes → string.

(** The first loop refuses only at an entry of [tobt.initialoplog] whose
    [old] is not the [update] that [bt.finaloplog] holds under the same
    key. *)
Lemma compare_first_states_Refused fin init tos init' :
  compare_first_states Hex fin init tos = Refused init' →
  ∃ toentry entry, toentry ∈ tos.*2 ∧
    map_lookup fin (Hex (key toentry)) = Some entry ∧
    bytes_Equal (old toentry) (update entry) = false.
Proof.
  revert init. induction tos as [|[k toentry] tos IH]; intros init; simpl; [done|].
  destruct (map_lookup fin (Hex (key toentry))) as [entry|] eqn:Hfin.
  - destruct (bytes_Equal (old toentry) (update entry)) eqn:Heq; simpl.
    + destruct (map_assign_absent init (Hex (key toentry)) toentry) as [init1|]; [|done].
      intros Hrest. destruct (IH _ Hrest) as (toentry' & entry' & Hin & Hl & Hne).
      exists toentry', entry'. split; [by apply list_elem_of_further | done].
    + intros _. exists toentry, entry. split; [apply list_elem_of_here | done].
  - destruct (map_assign_absent init (Hex (key toentry)) toentry) as [init1|]; [|done].
    intros Hrest. destruct (IH _ Hrest) as (toentry' & entry' & Hin & Hl & Hne).
    exists toentry', entry'. split; [by apply list_elem_of_further | done].
Qed.

(** [MergeWith] returns [false] only on such an entry or when [Clone]
    fails. *)
Lemma bt_MergeWith_false (bt tobt : BatchTrie T) r bt' :
  bt_MergeWith Hex bt tobt = Returns (false, r) bt' →
  (∃ toentry entry, toentry ∈ (from_option id [] (initialoplog tobt)).*2 ∧
     map_lookup (finaloplog bt) (Hex (key toentry)) = Some entry ∧
     bytes_Equal (old toentry) (update entry) = false) ∨
  (∃ err, trie_Clone (trie bt) = inl err).
Proof.
  unfold bt_MergeWith.
  destruct (compare_first_states Hex (finaloplog bt) (initialoplog bt) _)
    as [init|init|init] eqn:Hloop; [| done |].
  - intros _. left. by eapply compare_first_states_Refused.
  - unfold bt_Clone. destruct (trie_Clone (trie bt)) as [err|tr]; [intros _; right; by eexists|].
    by destruct (foldl _ _ _).
Qed.

End MergeWith.

Lemma bt_MergeWith_refuses_after_assignment :
  ∃ bt', bt_MergeWith hex merge_into merge_from = Returns (false, None) bt' ∧
         map_lookup (initialoplog merge_into) "61" = None ∧
         map_lookup (initialoplog bt') "61" =
           Some (mkEntry Get (String.list_byte_of_string "a") None None).
Proof. eexists. split; [reflexivity|]. split; reflexivity. Qed.

(** C10, as stated, fails for [Del]: on the rolled-back batch trie, [Del] of
    a key the trie does not hold returns the trie's error and assigns into no
    map. *)
Lemma Del_after_RollBack_returns :
  nil_oplogs rolled_back ∧
  bt_Del hex rolled_back (String.list_byte_of_string "k") =
    Returns (None, Some ErrKeyNotFound) rolled_back.
Proof. split; [split|]; reflexivity. Qed.

Lemma RollBack_nils_oplogs_witness :
  bt_Get hex rolled_back (String.list_byte_of_string "k") = Panics rolled_back ∧
  panics (bt_Put hex rolled_back (String.list_byte_of_string "k") None).
Proof.
  destruct (RollBack_nils_oplogs hex
              (left_by (bt_Put hex (bt_BeginBatch (NewBatchTrie ([] : MemTrie)))
                          (String.list_byte_of_string "a")
                          (Some (String.list_byte_of_string "1")))))
    as [Hnil Hafter].
  destruct (Hafter rolled_back Hnil) as (Hget & Hput & _).
  split; [apply Hget|]. apply (Hput (String.list_byte_of_string "k") None). reflexivity.
Defined.

End trie_facts.

(** * More of the batch trie *)

Module trie_coverage.
Import trie trie_examples.

(** ** Go maps as association lists *)

Lemma assoc_lookup_assign k e l k' :
  assoc_lookup k' (assoc_assign k e l) =
    if decide (k' = k) then Some e else assoc_lookup k' l.
Proof.
  induction l as [|[k0 e0] l IH]; simpl.
  - destruct (decide (k = k')), (decide (k' = k)); congruence.
  - destruct (decide (k0 = k)) as [->|Hne]; simpl.
    + destruct (decide (k = k')), (decide (k' = k)); congruence.
    + rewrite IH. destruct (decide (k0 = k')), (decide (k' = k)); congruence.
Qed.

Lemma map_lookup_assign m k e m' k' :
  map_assign m k e = Some m' →
  map_lookup m' k' = if decide (k' = k) then Some e else map_lookup m k'.
Proof.
  destruct m as [l|]; simpl; [|done]. intros [= <-]. simpl. apply assoc_lookup_assign.
Qed.

Lemma map_lookup_assign_absent m k e m' k' :
  map_assign_absent m k e = Some m' →
  map_lookup m' k' =
    if decide (k' = k) then Some (from_option id e (map_lookup m k)) else map_lookup m k'.
Proof.
  unfold map_assign_absent. destruct (map_lookup m k) as [e0|] eqn:Hl.
  - intros [= <-]. simpl. destruct (decide (k' = k)) as [->|]; done.
  - intros Hm. by rewrite (map_lookup_assign _ _ _ _ _ Hm).
Qed.

Lemma map_assign_Some m k e : m ≠ None → ∃ m', map_assign m k e = Some m' ∧ m' ≠ None.
Proof. destruct m; [|done]. intros _. by eexists. Qed.

Lemma map_assign_absent_Some m k e :
  m ≠ None → ∃ m', map_assign_absent m k e = Some m' ∧ m' ≠ None.
Proof.
  intros Hm. unfold map_assign_absent. destruct (map_lookup m k); [by exists m|].
  by apply map_assign_Some.
Qed.

(** ** What one operation does to a batch trie *)

Section Operations.
Context `{Trie T}.
Variable Hex : bytes → string.

(** An operation that returns has written the trie or failed to; unless its
    write failed, it has logged its entry in both logs and, for a write
    inside a batch, in the change log. *)
Lemma bt_do_Returns o (bt : BatchTrie T) r bt' :
  bt_do Hex o bt = Returns r bt' →
  trie bt' = (trie_after o bt).1 ∧ batching bt' = batching bt ∧
  match (trie_after o bt).2 with
  | Some e =>
      r = (None, Some e) ∧ changelog bt' = changelog bt ∧
      initialoplog bt' = initialoplog bt ∧ finaloplog bt' = finaloplog bt
  | None =>
      changelog bt' =
        (if is_write o && batching bt then changelog bt ++ [entry_of o bt]
         else changelog bt) ∧
      map_assign_absent (initialoplog bt) (Hex (op_key o)) (entry_of o bt)
        = Some (initialoplog bt') ∧
      map_assign (finaloplog bt) (Hex (op_key o)) (entry_of o bt) = Some (finaloplog bt')
  end.
Proof.
  destruct o as [k|k v|k]; simpl; unfold entry_of; simpl.
  - unfold bt_Get. destruct (trie_Get (trie bt) k) as [val err]. simpl.
    destruct (map_assign_absent (initialoplog bt) (Hex k) _) as [init'|] eqn:Hinit; [|done].
    simpl.
    destruct (map_assign (finaloplog bt) (Hex k) _) as [fin'|] eqn:Hfin;
      destruct (map_lookup (finaloplog bt) (Hex k)); try done;
      by intros [= <- <-].
  - unfold bt_Put. destruct (trie_Get (trie bt) k) as [old getErr].
    destruct (trie_Put (trie bt) k v) as [t' [rootHash [e|]]]; simpl.
    + by intros [= <- <-].
    + assert (Hkey : ∀ g : option error,
                key (match g with
                     | Some _ => mkEntry Insert k None v
                     | None => mkEntry Update k old v
                     end) = k) by (by intros []).
      rewrite !Hkey.
      destruct (map_assign_absent (initialoplog bt) (Hex k) _) as [init'|] eqn:Hinit; [|done].
      destruct (map_assign (finaloplog bt) (Hex k) _) as [fin'|] eqn:Hfin; [|done].
      intros [= <- <-]. simpl. by destruct (batching bt).
  - unfold bt_Del. destruct (trie_Get (trie bt) k) as [old getErr].
    destruct (trie_Del (trie bt) k) as [t' [rootHash [e|]]]; simpl.
    + by intros [= <- <-].
    + assert (Hkey : ∀ g : option error,
                key (match g with
                     | None => mkEntry Delete k old None
                     | Some _ => mkEntry Delete k None None
                     end) = k) by (by intros []).
      rewrite !Hkey.
      destruct (map_assign_absent (initialoplog bt) (Hex k) _) as [init'|] eqn:Hinit; [|done].
      destruct (map_assign (finaloplog bt) (Hex k) _) as [fin'|] eqn:Hfin; [|done].
      intros [= <- <-]. simpl. by destruct (batching bt).
Qed.

Lemma entry_of_key o (bt : BatchTrie T) : key (entry_of o bt) = op_key o.
Proof.
  unfold entry_of. destruct (trie_Get (trie bt) (op_key o)) as [old [e|]];
    by destruct o.
Qed.

Lemma assoc_assign_keys k e l x :
  x ∈ (assoc_assign k e l).*1 ↔ x = k ∨ x ∈ l.*1.
Proof.
  induction l as [|[k0 e0] l IH]; simpl.
  - rewrite list_elem_of_singleton. split; [by left | by intros [|?%elem_of_nil]].
  - destruct (decide (k0 = k)) as [->|Hne]; simpl; rewrite !elem_of_cons.
    + tauto.
    + rewrite IH. tauto.
Qed.

Lemma assoc_assign_NoDup k e l : NoDup l.*1 → NoDup (assoc_assign k e l).*1.
Proof.
  induction l as [|[k0 e0] l IH]; simpl; intros Hl.
  - repeat constructor. by intros ?%elem_of_nil.
  - apply NoDup_cons in Hl as [Hk0 Hl].
    destruct (decide (k0 = k)) as [->|Hne]; simpl; apply NoDup_cons.
    + done.
    + split; [|by apply IH]. rewrite assoc_assign_keys. intros [|]; done.
Qed.

Lemma assoc_assign_Forall (P : string * Entry → Prop) k e l :
  P (k, e) → Forall P l → Forall P (assoc_assign k e l).
Proof.
  intros Hke Hl. induction Hl as [|[k0 e0] l Hp Hl IH]; simpl.
  - by constructor.
  - destruct (decide (k0 = k)); by constructor.
Qed.

Lemma map_assign_keyed m e m' :
  keyed Hex m → map_assign m (Hex (key e)) e = Some m' → keyed Hex m'.
Proof.
  destruct m as [l|]; simpl; [|done]. intros [Hnd Hk] [= <-]. simpl. split.
  - by apply assoc_assign_NoDup.
  - by apply assoc_assign_Forall.
Qed.

Lemma map_assign_absent_keyed m e m' :
  keyed Hex m → map_assign_absent m (Hex (key e)) e = Some m' → keyed Hex m'.
Proof.
  unfold map_assign_absent. destruct (map_lookup m (Hex (key e))).
  - by intros Hm [= <-].
  - apply map_assign_keyed.
Qed.

Lemma bt_do_has_logs o (bt : BatchTrie T) :
  has_logs bt → ∃ r bt', bt_do Hex o bt = Returns r bt' ∧ has_logs bt'.
Proof.
  intros [Hinit Hfin].
  destruct (map_assign_absent_Some (initialoplog bt) (Hex (op_key o)) (entry_of o bt) Hinit)
    as (init' & Hi & Hi').
  destruct (map_assign_Some (finaloplog bt) (Hex (op_key o)) (entry_of o bt) Hfin)
    as (fin' & Hf & Hf').
  revert Hi Hf. unfold entry_of.
  destruct o as [k|k v|k]; simpl.
  - unfold bt_Get. destruct (trie_Get (trie bt) k) as [val err]. simpl.
    intros -> Hf. simpl. rewrite Hf.
    destruct (map_lookup (finaloplog bt) (Hex k)); by eexists _, _.
  - unfold bt_Put. destruct (trie_Get (trie bt) k) as [old getErr].
    destruct (trie_Put (trie bt) k v) as [t' [rootHash [e|]]]; simpl.
    + intros _ _. by eexists _, _.
    + destruct getErr; simpl; intros -> Hf; simpl; rewrite Hf; by eexists _, _.
  - unfold bt_Del. destruct (trie_Get (trie bt) k) as [old getErr].
    destruct (trie_Del (trie bt) k) as [t' [rootHash [e|]]]; simpl.
    + intros _ _. by eexists _, _.
    + destruct getErr; simpl; intros -> Hf; simpl; rewrite Hf; by eexists _, _.
Qed.

Lemma bt_do_keyed o (bt : BatchTrie T) r bt' :
  bt_do Hex o bt = Returns r bt' →
  keyed Hex (initialoplog bt) → keyed Hex (finaloplog bt) →
  keyed Hex (initialoplog bt') ∧ keyed Hex (finaloplog bt').
Proof.
  intros Hdo Hi Hf. destruct (bt_do_Returns _ _ _ _ Hdo) as (_ & _ & Hlog).
  destruct ((trie_after o bt).2).
  - destruct Hlog as (_ & _ & -> & ->). done.
  - destruct Hlog as (_ & Hinit & Hfin). rewrite <- (entry_of_key o bt) in Hinit, Hfin.
    split; [exact (map_assign_absent_keyed _ _ _ Hi Hinit) | exact (map_assign_keyed _ _ _ Hf Hfin)].
Qed.

(** X1: while both logs of a batch trie are maps, no sequence of [Get],
    [Put] and [Del] panics, the logs stay maps, and they stay keyed: every
    entry sits under the [Hex] of its own key. *)
Theorem bt_run_keeps_logs ops (bt : BatchTrie T) :
  has_logs bt → keyed Hex (initialoplog bt) → keyed Hex (finaloplog bt) →
  ∃ bt', bt_run Hex ops bt = Returns () bt' ∧ has_logs bt' ∧
         keyed Hex (initialoplog bt') ∧ keyed Hex (finaloplog bt').
Proof.
  revert bt. induction ops as [|o ops IH]; intros bt Hlogs Hi Hf; simpl.
  - by exists bt.
  - destruct (bt_do_has_logs o bt Hlogs) as (r & bt1 & Hdo & Hlogs1).
    destruct (bt_do_keyed _ _ _ _ Hdo Hi Hf) as [Hi1 Hf1].
    rewrite Hdo. by apply IH.
Qed.

(** X2: the first-state log is written once per key: whatever [Get], [Put]
    and [Del] follow, an entry of [initialoplog] stays the entry it is. *)
Theorem initialoplog_write_once ops (bt bt' : BatchTrie T) h e :
  bt_run Hex ops bt = Returns () bt' →
  map_lookup (initialoplog bt) h = Some e →
  map_lookup (initialoplog bt') h = Some e.
Proof.
  revert bt. induction ops as [|o ops IH]; intros bt; simpl.
  - by intros [= <-].
  - destruct (bt_do Hex o bt) as [r bt1|bt1] eqn:Hdo; [|done].
    intros Hrun Hl. apply (IH bt1 Hrun).
    destruct (bt_do_Returns _ _ _ _ Hdo) as (_ & _ & Hlog).
    destruct ((trie_after o bt).2).
    + destruct Hlog as (_ & _ & -> & _). done.
    + destruct Hlog as (_ & Hinit & _).
      rewrite (map_lookup_assign_absent _ _ _ _ h Hinit).
      destruct (decide (h = Hex (op_key o))) as [->|]; [|done]. by rewrite Hl.
Qed.

(** X3: the final-state log holds, under a key, the entry of the last
    operation on it that reached the logs.  A [Get] that returns leaves a
    [Get] entry there, whatever write was logged before; a [Put] or [Del]
    whose write to the trie succeeded leaves its own entry; the entries of
    the other keys stay; a [Put] or [Del] whose write failed changes neither
    log. *)
Theorem finaloplog_last_operation o (bt bt' : BatchTrie T) r :
  bt_do Hex o bt = Returns r bt' →
  match (trie_after o bt).2 with
  | None =>
      map_lookup (finaloplog bt') (Hex (op_key o)) = Some (entry_of o bt) ∧
      (is_write o = false → action (entry_of o bt) = Get) ∧
      (is_write o = true → action (entry_of o bt) ≠ Get) ∧
      (∀ h, h ≠ Hex (op_key o) →
         map_lookup (finaloplog bt') h = map_lookup (finaloplog bt) h)
  | Some _ => initialoplog bt' = initialoplog bt ∧ finaloplog bt' = finaloplog bt
  end.
Proof.
  intros Hdo. destruct (bt_do_Returns _ _ _ _ Hdo) as (_ & _ & Hlog).
  destruct ((trie_after o bt).2).
  - by destruct Hlog as (_ & _ & -> & ->).
  - destruct Hlog as (_ & _ & Hfin). split; [|split; [|split]].
    + rewrite (map_lookup_assign _ _ _ _ _ Hfin). by rewrite decide_True.
    + unfold entry_of. destruct (trie_Get _ _) as [old getErr]. by destruct o.
    + unfold entry_of. destruct (trie_Get _ _) as [old [e|]]; by destruct o.
    + intros h Hh. rewrite (map_lookup_assign _ _ _ _ _ Hfin). by rewrite decide_False.
Qed.

(** X4: the change log grows only by the writes of a batch.  Over any
    sequence of operations that returns, [batching] keeps its value and the
    change log keeps its entries; the entries added are [Put] and [Del]
    entries, at most one for each [Put] or [Del] of the sequence, and none at
    all outside a batch. *)
Theorem changelog_grows_in_batch ops (bt bt' : BatchTrie T) :
  bt_run Hex ops bt = Returns () bt' →
  batching bt' = batching bt ∧
  ∃ new, changelog bt' = changelog bt ++ new ∧
         Forall (λ e, action e ≠ Get) new ∧
         length new ≤ length (filter (λ o, is_write o = true) ops) ∧
         (batching bt = false → new = []).
Proof.
  revert bt. induction ops as [|o ops IH]; intros bt; simpl.
  - intros [= <-]. split; [done|]. exists []. by rewrite app_nil_r.
  - destruct (bt_do Hex o bt) as [r bt1|bt1] eqn:Hdo; [|done].
    intros Hrun. destruct (IH bt1 Hrun) as (Hb & new & Hlog & Hnew & Hlen & Hoff).
    destruct (bt_do_Returns _ _ _ _ Hdo) as (_ & Hb1 & Hstep).
    split; [congruence|]. rewrite filter_cons.
    assert (Hact : is_write o = true → action (entry_of o bt) ≠ Get).
    { unfold entry_of. destruct (trie_Get _ _) as [old [e|]]; by destruct o. }
    assert (Hcases : changelog bt1 = changelog bt ∨
              (is_write o = true ∧ batching bt = true ∧
               changelog bt1 = changelog bt ++ [entry_of o bt])).
    { destruct ((trie_after o bt).2).
      - left. by destruct Hstep as (_ & -> & _).
      - destruct Hstep as (-> & _).
        destruct (is_write o), (batching bt); simpl; auto. }
    destruct Hcases as [Hsame | (Hw & Hon & Hgrow)].
    + exists new. rewrite Hlog, Hsame. split; [done|]. split; [done|]. split.
      * destruct (decide (is_write o = true)); simpl; lia.
      * intros Hoff'. apply Hoff. congruence.
    + exists (entry_of o bt :: new). rewrite Hlog, Hgrow, <- app_assoc. simpl.
      split; [done|]. split; [constructor; auto|]. split.
      * rewrite decide_True by done. simpl. lia.
      * congruence.
Qed.

(** Outside a batch no operation writes the change log. *)
Lemma bt_run_outside_batch ops (bt bt' : BatchTrie T) :
  batching bt = false → bt_run Hex ops bt = Returns () bt' →
  changelog bt' = changelog bt ∧ batching bt' = false.
Proof.
  revert bt. induction ops as [|o ops IH]; intros bt Hoff; simpl.
  - by intros [= <-].
  - destruct (bt_do Hex o bt) as [r bt1|bt1] eqn:Hdo; [|done].
    destruct (bt_do_Returns _ _ _ _ Hdo) as (_ & Hb1 & Hstep).
    intros Hrun. destruct (IH bt1 ltac:(congruence) Hrun) as [-> ->].
    split; [|done]. destruct ((trie_after o bt).2).
    + by destruct Hstep as (_ & -> & _).
    + destruct Hstep as (-> & _). rewrite Hoff. by destruct (is_write o).
Qed.

(** X21: [Commit] closes the batch for good.  Whatever was written before
    [Commit], and whatever [Get], [Put] and [Del] follow it without a new
    [BeginBatch], the change log stays empty and a later [RollBack] hands
    back the very trie it finds: none of these writes is undone, while both
    logs are lost to [nil]. *)
Theorem bt_Commit_closes_batch ops (bt bt' : BatchTrie T) :
  bt_run Hex ops (bt_Commit bt) = Returns () bt' →
  changelog bt' = [] ∧ batching bt' = false ∧
  trie (bt_RollBack Hex bt') = trie bt' ∧
  initialoplog (bt_RollBack Hex bt') = None ∧ finaloplog (bt_RollBack Hex bt') = None.
Proof.
  intros Hrun.
  destruct (bt_run_outside_batch ops (bt_Commit bt) bt' eq_refl Hrun) as [Hlog Hoff].
  simpl in Hlog. unfold bt_RollBack. rewrite Hlog. by simpl.
Qed.

(** ** RelatedTo *)

Lemma assoc_lookup_elem h l e : assoc_lookup h l = Some e → (h, e) ∈ l.
Proof.
  induction l as [|[k0 e0] l IH]; simpl; [done|].
  destruct (decide (k0 = h)) as [->|].
  - intros [= ->]. apply list_elem_of_here.
  - intros Hl. apply list_elem_of_further. by apply IH.
Qed.

Lemma elem_assoc_lookup h l e : NoDup l.*1 → (h, e) ∈ l → assoc_lookup h l = Some e.
Proof.
  induction l as [|[k0 e0] l IH]; simpl; intros Hnd Hin; [by apply elem_of_nil in Hin|].
  apply NoDup_cons in Hnd as [Hk0 Hnd]. apply elem_of_cons in Hin as [[= -> ->]|Hin].
  - by rewrite decide_True.
  - destruct (decide (k0 = h)) as [->|]; [|by apply IH].
    destruct Hk0. apply list_elem_of_fmap. by exists (h, e).
Qed.

Lemma bt_RelatedTo_true (bt tobt : BatchTrie T) :
  keyed Hex (finaloplog bt) →
  bt_RelatedTo Hex bt tobt = true ↔ share_a_write bt tobt.
Proof.
  intros Hk. unfold bt_RelatedTo, share_a_write. rewrite existsb_exists. split.
  - intros ([h e1] & Hin & Hcond). simpl in Hcond.
    apply list_elem_of_In in Hin.
    destruct (finaloplog bt) as [l|]; simpl in *; [|by apply elem_of_nil in Hin].
    destruct Hk as [Hnd Hk]. rewrite Forall_forall in Hk.
    pose proof (Hk _ Hin) as Hh. simpl in Hh. subst h.
    destruct (map_lookup (finaloplog tobt) (Hex (key e1))) as [e2|] eqn:Hl2; [|done].
    exists (Hex (key e1)), e1, e2. split; [by apply elem_assoc_lookup|]. split; [done|].
    apply orb_true_iff in Hcond as [Hc|Hc]; apply negb_true_iff in Hc;
      apply bool_decide_eq_false in Hc; auto.
  - intros (h & e1 & e2 & Hl1 & Hl2 & Hact).
    destruct (finaloplog bt) as [l|]; simpl in *; [|done].
    destruct Hk as [Hnd Hk]. rewrite Forall_forall in Hk.
    apply assoc_lookup_elem in Hl1. pose proof (Hk _ Hl1) as Hh. simpl in Hh. subst h.
    exists (Hex (key e1), e1). split; [by apply list_elem_of_In|]. simpl. rewrite Hl2.
    apply orb_true_iff. destruct Hact as [Hact|Hact]; [left|right];
      apply negb_true_iff; by apply bool_decide_eq_false.
Qed.

(** X5: on batch tries whose final logs are keyed, [RelatedTo] answers
    [true] exactly when the two final logs hold, under one key, entries that
    are not both [Get] entries; so it is symmetric, and two batch tries whose
    final entries are all [Get] entries are not related. *)
Theorem bt_RelatedTo_shared_write (bt tobt : BatchTrie T) :
  keyed Hex (finaloplog bt) → keyed Hex (finaloplog tobt) →
  (bt_RelatedTo Hex bt tobt = true ↔ share_a_write bt tobt) ∧
  bt_RelatedTo Hex bt tobt = bt_RelatedTo Hex tobt bt ∧
  ((∀ h e, map_lookup (finaloplog bt) h = Some e → action e = Get) →
   (∀ h e, map_lookup (finaloplog tobt) h = Some e → action e = Get) →
   bt_RelatedTo Hex bt tobt = false).
Proof.
  intros Hk1 Hk2. split; [by apply bt_RelatedTo_true|]. split.
  - assert (Hsym : ∀ a b : BatchTrie T, share_a_write a b → share_a_write b a).
    { intros a b (h & e1 & e2 & H1 & H2 & Hact). exists h, e2, e1. tauto. }
    destruct (bt_RelatedTo Hex bt tobt) eqn:H12, (bt_RelatedTo Hex tobt bt) eqn:H21;
      try done.
    + apply bt_RelatedTo_true in H12; [|done]. apply Hsym in H12.
      apply bt_RelatedTo_true in H12; [|done]. congruence.
    + apply bt_RelatedTo_true in H21; [|done]. apply Hsym in H21.
      apply bt_RelatedTo_true in H21; [|done]. congruence.
  - intros Hg1 Hg2. destruct (bt_RelatedTo Hex bt tobt) eqn:H12; [|done].
    apply bt_RelatedTo_true in H12; [|done].
    destruct H12 as (h & e1 & e2 & H1 & H2 & [Hact|Hact]).
    + destruct Hact. by eapply Hg1.
    + destruct Hact. by eapply Hg2.
Qed.

(** After a [Put] and a [Get] of one key on a new batch trie, the final log
    is keyed and holds nothing but a [Get] entry. *)
Lemma put_get_final_log (t : T) k v :
  let bt' := left_by (bt_run Hex [BtPut k v; BtGet k] (NewBatchTrie t)) in
  keyed Hex (finaloplog bt') ∧
  ∀ h e, map_lookup (finaloplog bt') h = Some e → action e = Get.
Proof.
  assert (Hnew : has_logs (NewBatchTrie t)) by (by split).
  assert (Hkeyed : keyed Hex (Some [])) by (split; constructor).
  destruct (bt_do_has_logs (BtPut k v) _ Hnew) as (r1 & bt1 & Hput & Hlogs1).
  destruct (bt_do_has_logs (BtGet k) _ Hlogs1) as (r2 & bt2 & Hget & Hlogs2).
  destruct (bt_do_keyed (BtPut k v) _ _ _ Hput Hkeyed Hkeyed) as [Hi1 Hf1].
  destruct (bt_do_keyed (BtGet k) _ _ _ Hget Hi1 Hf1) as [Hi2 Hf2].
  cbn [bt_run]. rewrite Hput, Hget. cbn [left_by].
  split; [done|]. intros h e.
  destruct (bt_do_Returns (BtGet k) _ _ _ Hget) as (_ & _ & _ & _ & Hfin2).
  simpl in Hfin2.
  rewrite (map_lookup_assign _ _ _ _ h Hfin2).
  destruct (decide (h = Hex k)) as [->|Hne].
  - intros [= <-]. unfold entry_of. simpl. by destruct (trie_Get (trie bt1) k).
  - destruct (bt_do_Returns (BtPut k v) _ _ _ Hput) as (_ & _ & Hlog1).
    destruct ((trie_after (BtPut k v) (NewBatchTrie t)).2).
    + destruct Hlog1 as (_ & _ & _ & ->). done.
    + destruct Hlog1 as (_ & _ & Hfin1).
      rewrite (map_lookup_assign _ _ _ _ h Hfin1). by rewrite decide_False.
Qed.

(** X6: a write that is read back is not seen by [RelatedTo].  Two new
    batch tries that each [Put] a value under the same key and then [Get]
    that key are not related, whatever the tries and the values: the [Get]
    has replaced the final entry of the [Put] by a [Get] entry. *)
Theorem bt_RelatedTo_misses_read_back_write (t1 t2 : T) k v1 v2 :
  bt_RelatedTo Hex
    (left_by (bt_run Hex [BtPut k v1; BtGet k] (NewBatchTrie t1)))
    (left_by (bt_run Hex [BtPut k v2; BtGet k] (NewBatchTrie t2))) = false.
Proof.
  destruct (put_get_final_log t1 k v1) as [Hk1 Hg1].
  destruct (put_get_final_log t2 k v2) as [Hk2 Hg2].
  destruct (bt_RelatedTo Hex _ _) eqn:Hrel; [|done].
  apply bt_RelatedTo_true in Hrel; [|done].
  destruct Hrel as (h & e1 & e2 & H1 & H2 & [Hact|Hact]); destruct Hact.
  - by eapply Hg1.
  - by eapply Hg2.
Qed.

End Operations.

(** ** RollBack undoes a batch *)

Section Undo.
Context `{LawfulTrie T}.
Variable Hex : bytes → string.
Hypothesis Hex_inj : ∀ a b, Hex a = Hex b → a = b.

Lemma first_entry_key k log e : first_entry k log = Some e → key e = k.
Proof.
  induction log as [|e0 log IH]; simpl; [done|].
  destruct (decide (key e0 = k)); [by intros [= <-] | exact IH].
Qed.

Lemma first_entry_snoc k log e :
  first_entry k (log ++ [e]) =
    match first_entry k log with
    | Some x => Some x
    | None => if decide (key e = k) then Some e else None
    end.
Proof.
  induction log as [|e0 log IH]; simpl; [done|].
  by destruct (decide (key e0 = k)).
Qed.

(** What a write to a lawful trie logs and leaves. *)
Lemma trie_Get_content (t : T) k :
  match content t k with
  | Some v => trie_Get t k = (v, None)
  | None => ∃ old e, trie_Get t k = (old, Some e)
  end.
Proof.
  destruct (content t k) as [v|] eqn:Hc.
  - by apply get_present.
  - pose proof (get_absent t k Hc) as Hne. destruct (trie_Get t k) as [old [e|]]; [|done].
    by eexists _, _.
Qed.

(** One operation inside a batch keeps the change log a record of the
    way from the content the batch began with. *)
Lemma bt_do_recorded c0 o (bt : BatchTrie T) r bt' :
  batching bt = true →
  recorded c0 (changelog bt) (content (trie bt)) →
  bt_do Hex o bt = Returns r bt' →
  recorded c0 (changelog bt') (content (trie bt')).
Proof.
  intros Hb Hrec Hdo.
  destruct (trie_coverage.bt_do_Returns Hex _ _ _ _ Hdo) as (Ht & _ & Hlog).
  rewrite Ht. clear Ht Hdo. unfold entry_of in Hlog.
  destruct o as [k|k v|k]; simpl in *.
  - destruct Hlog as (-> & _). done.
  - pose proof (put_ok (trie bt) k v) as Hok.
    pose proof (put_content (trie bt) k v) as Hc.
    destruct (trie_Put (trie bt) k v) as [t' [rootHash err]]. simpl in *. subst err.
    destruct Hlog as (-> & _). rewrite Hb. intros k'. rewrite first_entry_snoc.
    specialize (Hrec k'). destruct (first_entry k' (changelog bt)) as [e|]; [done|].
    pose proof (trie_Get_content (trie bt) k) as Hget.
    destruct (decide (k' = k)) as [->|Hne].
    + destruct (content (trie bt) k) as [o|] eqn:Hck.
      * rewrite Hget. simpl. rewrite decide_True by done. unfold remembers. simpl.
        congruence.
      * destruct Hget as (old & e & ->). simpl. rewrite decide_True by done.
        unfold remembers. simpl. congruence.
    + assert (Hkey : key (let '(old, getErr) := trie_Get (trie bt) k in
                          match getErr with
                          | Some _ => mkEntry Insert k None v
                          | None => mkEntry Update k old v
                          end) = k)
        by (destruct (trie_Get (trie bt) k) as [? []]; done).
      rewrite Hkey, decide_False by done. rewrite Hc, decide_False by done. done.
  - pose proof (del_ok (trie bt) k) as Hok.
    pose proof (del_content (trie bt) k) as Hc.
    destruct (trie_Del (trie bt) k) as [t' [rootHash err]]. simpl in *.
    destruct err as [e|].
    + destruct Hlog as (_ & -> & _). intros k'. specialize (Hrec k').
      destruct (first_entry k' (changelog bt)); [done|]. rewrite Hc.
      destruct (decide (k' = k)) as [->|]; [|done].
      destruct (content (trie bt) k) eqn:Hck; [|congruence].
      assert (Some e = None) as Habs by (by apply Hok). done.
    + destruct Hlog as (-> & _). rewrite Hb. intros k'. rewrite first_entry_snoc.
      specialize (Hrec k'). destruct (first_entry k' (changelog bt)) as [e|]; [done|].
      pose proof (trie_Get_content (trie bt) k) as Hget.
      assert (Hpresent : content (trie bt) k ≠ None) by (by apply Hok).
      destruct (content (trie bt) k) as [o|] eqn:Hck; [|done].
      rewrite Hget. simpl.
      destruct (decide (k = k')) as [<-|Hne].
      * unfold remembers. simpl. congruence.
      * rewrite Hc, decide_False by done. done.
Qed.

Lemma bt_run_recorded c0 ops (bt : BatchTrie T) bt' :
  batching bt = true →
  recorded c0 (changelog bt) (content (trie bt)) →
  bt_run Hex ops bt = Returns () bt' →
  recorded c0 (changelog bt') (content (trie bt')).
Proof.
  revert bt. induction ops as [|o ops IH]; intros bt Hb Hrec; simpl.
  - by intros [= <-].
  - destruct (bt_do Hex o bt) as [r bt1|bt1] eqn:Hdo; [|done].
    apply IH.
    + destruct (trie_coverage.bt_do_Returns Hex _ _ _ _ Hdo) as (_ & -> & _). done.
    + by eapply bt_do_recorded.
Qed.

(** The compressed change log holds, under the [Hex] of each key, the
    first entry of that key. *)
Lemma compress_first_entry log :
  NoDup (compress Hex log).*1 ∧
  Forall (λ p : string * Entry, p.1 = Hex (key p.2)) (compress Hex log) ∧
  ∀ k, assoc_lookup (Hex k) (compress Hex log) = first_entry k log.
Proof using Hex_inj.
  induction log as [|e log IH] using rev_ind.
  - split; [constructor|]. split; [constructor | done].
  - destruct IH as (Hnd & Hk & Hl). unfold compress in *. rewrite foldl_app. simpl.
    set (m := foldl _ [] log) in *.
    destruct (assoc_lookup (Hex (key e)) m) as [e0|] eqn:Hm.
    + split; [done|]. split; [done|]. intros k. rewrite first_entry_snoc, Hl.
      destruct (first_entry k log) eqn:Hfe; [done|].
      destruct (decide (key e = k)) as [<-|]; [|done]. rewrite <- Hl in Hfe. congruence.
    + split; [by apply assoc_assign_NoDup|].
      split; [by apply assoc_assign_Forall|].
      intros k. rewrite first_entry_snoc, assoc_lookup_assign, <- Hl.
      destruct (decide (Hex k = Hex (key e))) as [Heq|Hne].
      * apply Hex_inj in Heq as ->. rewrite Hm. by rewrite decide_True.
      * destruct (assoc_lookup (Hex k) m); [done|].
        destruct (decide (key e = k)) as [<-|]; done.
Qed.

Lemma keyed_keys (l : list (string * Entry)) :
  Forall (λ p : string * Entry, p.1 = Hex (key p.2)) l → l.*1 = Hex <$> (key <$> l.*2).
Proof. induction 1 as [|[h e] l Hh _ IH]; csimpl in *; congruence. Qed.

(** Undoing the first entries of distinct keys gives each of them what its
    entry remembers and leaves the other keys alone. *)
Lemma foldl_undo_content c0 es (t : T) k :
  NoDup (key <$> es) → Forall (remembers c0) es →
  content (foldl undo t es) k =
    if decide (k ∈ key <$> es) then c0 k else content t k.
Proof.
  revert t. induction es as [|e es IH]; intros t Hnd Hrem.
  - done.
  - rewrite fmap_cons in *. apply NoDup_cons in Hnd as [Hfresh Hnd].
    apply Forall_cons in Hrem as [He Hes].
    change (foldl undo t (e :: es)) with (foldl undo (undo t e) es).
    rewrite IH by done.
    assert (Hundo : content (undo t e) k =
                    if decide (k = key e) then c0 k else content t k).
    { unfold undo, remembers in *. destruct (action e); [| | |done].
      - rewrite del_content. destruct (decide (k = key e)); congruence.
      - rewrite put_content. destruct (decide (k = key e)); congruence.
      - rewrite put_content. destruct (decide (k = key e)); congruence. }
    rewrite Hundo.
    destruct (decide (k ∈ key <$> es)) as [Hin|Hout].
    + rewrite decide_True; [done | by apply list_elem_of_further].
    + destruct (decide (k = key e)) as [->|Hne].
      * rewrite decide_True; [done | apply list_elem_of_here].
      * rewrite decide_False; [done|]. intros [|]%elem_of_cons; done.
Qed.

(** [RollBack] takes a recorded batch back to the content it began with. *)
Lemma bt_RollBack_recorded c0 (bt : BatchTrie T) k :
  recorded c0 (changelog bt) (content (trie bt)) →
  content (trie (bt_RollBack Hex bt)) k = c0 k.
Proof using Hex_inj.
  intros Hrec. unfold bt_RollBack. simpl.
  destruct (compress_first_entry (changelog bt)) as (Hnd & Hk & Hl).
  set (m := compress Hex (changelog bt)) in *.
  assert (Hin : ∀ e, e ∈ m.*2 → first_entry (key e) (changelog bt) = Some e).
  { intros e He. apply list_elem_of_fmap in He as ([h e'] & -> & He). simpl.
    rewrite Forall_forall in Hk. pose proof (Hk _ He) as Hh. simpl in Hh. subst h.
    rewrite <- Hl. by apply elem_assoc_lookup. }
  rewrite (foldl_undo_content c0).
  - specialize (Hrec k). destruct (decide (k ∈ key <$> m.*2)) as [Hk'|Hk']; [done|].
    destruct (first_entry k (changelog bt)) as [e|] eqn:Hfe; [|done].
    destruct Hk'. rewrite <- Hl in Hfe. apply assoc_lookup_elem in Hfe.
    apply first_entry_key in Hfe as Hkey || idtac.
    apply list_elem_of_fmap. exists e. split.
    + rewrite Forall_forall in Hk. pose proof (Hk _ Hfe) as Hh. simpl in Hh.
      by apply Hex_inj in Hh.
    + apply list_elem_of_fmap. by exists (Hex k, e).
  - apply (NoDup_fmap_1 Hex). by rewrite <- keyed_keys.
  - apply Forall_forall. intros e He. pose proof (Hin e He) as Hfe.
    specialize (Hrec (key e)). by rewrite Hfe in Hrec.
Qed.

(** X7: over a trie that behaves as a map, and with [Hex] telling keys
    apart, [RollBack] undoes a batch: after [BeginBatch] on a batch trie with
    an empty change log and any [Get], [Put] and [Del] that return, [RollBack]
    leaves the trie holding, for every key, what it held when the batch
    began, with the change log empty and the batch closed. *)
Theorem bt_RollBack_undoes_batch ops (bt bt' : BatchTrie T) :
  changelog bt = [] →
  bt_run Hex ops (bt_BeginBatch bt) = Returns () bt' →
  (∀ k, content (trie (bt_RollBack Hex bt')) k = content (trie bt) k) ∧
  changelog (bt_RollBack Hex bt') = [] ∧ batching (bt_RollBack Hex bt') = false.
Proof using Hex_inj.
  intros Hlog Hrun. split; [|done]. intros k. apply bt_RollBack_recorded.
  eapply (bt_run_recorded (content (trie bt)) ops (bt_BeginBatch bt)); [done| |done].
  simpl. rewrite Hlog. by intros k'.
Qed.

End Undo.

(** The map-backed trie is lawful. *)
Lemma mem_lookup_remove k m k' :
  mem_lookup k' (mem_remove k m) = if decide (k' = k) then None else mem_lookup k' m.
Proof.
  induction m as [|[k0 v0] m IH]; simpl.
  - by destruct (decide (k' = k)).
  - destruct (decide (k0 = k)) as [->|Hne]; simpl.
    + rewrite IH. destruct (decide (k' = k)) as [->|]; [done|].
      by rewrite decide_False.
    + rewrite IH. destruct (decide (k0 = k')) as [->|]; [|done].
      by rewrite decide_False.
Qed.

#[global] Instance MemTrie_LawfulTrie : LawfulTrie MemTrie.
Proof.
  refine {| content := λ m k, mem_lookup k m |}.
  - intros m k v Hc. simpl. by rewrite Hc.
  - intros m k Hc. simpl. by rewrite Hc.
  - done.
  - intros m k v k'. simpl. rewrite mem_lookup_remove.
    destruct (decide (k = k')) as [->|]; [by rewrite decide_True|].
    by rewrite !decide_False by congruence.
  - intros m k. simpl. destruct (mem_lookup k m); simpl; split; done.
  - intros m k k'. simpl. destruct (mem_lookup k m) eqn:Hl; simpl.
    + apply mem_lookup_remove.
    + destruct (decide (k' = k)) as [->|]; done.
Defined.

(** [hex] tells keys apart. *)
Lemma unhex_hex b : unhex (hex b) = b.
Proof.
  induction b as [|x b IH]; simpl; [done|].
  change (foldr _ EmptyString b) with (hex b). rewrite IH.
  assert (Byte.of_N (16 * digit_val (hex_digit (Byte.to_N x / 16)) +
                     digit_val (hex_digit (Byte.to_N x mod 16))) = Some x) as ->;
    [|done].
  destruct x; reflexivity.
Qed.

Lemma hex_inj a b : hex a = hex b → a = b.
Proof. intros Heq. by rewrite <- (unhex_hex a), <- (unhex_hex b), Heq. Qed.

(** ** MergeWith *)

Section Merge.
Context `{Trie T}.
Variable Hex : bytes → string.

(** The first loop of [MergeWith] on a first-state log that is a map: it
    does not panic, it refuses exactly when an entry disagrees, and the log
    it leaves is a map. *)
Lemma compare_first_states_cases fin init tos :
  init ≠ None →
  match compare_first_states Hex fin init tos with
  | Panicked _ => False
  | Refused init' => init' ≠ None ∧ ∃ toentry, toentry ∈ tos.*2 ∧ disagrees Hex fin toentry
  | Finished init' => init' ≠ None ∧ ∀ toentry, toentry ∈ tos.*2 → ¬ disagrees Hex fin toentry
  end.
Proof.
  revert init. induction tos as [|[h toentry] tos IH]; intros init Hinit; simpl.
  - split; [done|]. by intros ? ?%elem_of_nil.
  - assert (Hdec : (∃ entry, map_lookup fin (Hex (key toentry)) = Some entry ∧
                       bytes_Equal (old toentry) (update entry) = false) ∨
                   match map_lookup fin (Hex (key toentry)) with
                   | Some entry => negb (bytes_Equal (old toentry) (update entry))
                   | None => false
                   end = false).
    { destruct (map_lookup fin (Hex (key toentry))) as [entry|]; [|by right].
      destruct (bytes_Equal (old toentry) (update entry)) eqn:Heq; [by right|].
      left. by exists entry. }
    destruct Hdec as [(entry & Hl & Hne) | Hagree].
    + rewrite Hl, Hne. simpl. split; [done|]. exists toentry.
      split; [apply list_elem_of_here | by exists entry].
    + rewrite Hagree.
      destruct (map_assign_absent_Some init (Hex (key toentry)) toentry Hinit)
        as (init1 & -> & Hinit1).
      specialize (IH init1 Hinit1).
      assert (Hhere : ¬ disagrees Hex fin toentry).
      { intros (entry & Hl & Hne). rewrite Hl, Hne in Hagree. done. }
      destruct (compare_first_states Hex fin init1 tos) as [init'|init'|init']; [|done|].
      * destruct IH as (Hi & toentry' & Hin & Hd). split; [done|].
        exists toentry'. split; [by apply list_elem_of_further | done].
      * destruct IH as (Hi & Hall). split; [done|].
        intros toentry' [->|Hin]%elem_of_cons; [done | by apply Hall].
Qed.

(** However the first loop ends, the first-state log keeps the entries it
    had; an entry it has gained is an entry of [tobt.initialoplog], under the
    [Hex] of its key, where the log had none. *)
Lemma compare_first_states_grows fin init tos init' :
  compare_first_states Hex fin init tos = Refused init' ∨
  compare_first_states Hex fin init tos = Panicked init' ∨
  compare_first_states Hex fin init tos = Finished init' →
  ∀ h, match map_lookup init h with
       | Some e => map_lookup init' h = Some e
       | None =>
           map_lookup init' h = None ∨
           ∃ toentry, map_lookup init' h = Some toentry ∧ toentry ∈ tos.*2 ∧
                      h = Hex (key toentry)
       end.
Proof.
  revert init. induction tos as [|[h0 toentry] tos IH]; intros init; simpl.
  - intros [|[|[= <-]]]; try done. intros h. destruct (map_lookup init h); auto.
  - destruct (match map_lookup fin (Hex (key toentry)) with
              | Some entry => negb (bytes_Equal (old toentry) (update entry))
              | None => false
              end).
    { intros [[= <-]|[|]]; try done. intros h. destruct (map_lookup init h); auto. }
    destruct (map_assign_absent init (Hex (key toentry)) toentry) as [init1|] eqn:Hinit1.
    + intros Hend h. specialize (IH init1 Hend h).
      rewrite (map_lookup_assign_absent _ _ _ _ h Hinit1) in IH.
      destruct (decide (h = Hex (key toentry))) as [->|Hne].
      * destruct (map_lookup init (Hex (key toentry))) as [e|]; simpl in IH; [done|].
        right. exists toentry. split; [done|]. split; [apply list_elem_of_here | done].
      * destruct (map_lookup init h) as [e|]; [done|].
        destruct IH as [|(toentry' & Hl & Hin & Hh)]; [by left|].
        right. exists toentry'. split; [done|]. split; [by apply list_elem_of_further|done].
    + intros [|[[= <-]|]]; try done. intros h. destruct (map_lookup init h); auto.
Qed.

(** The second loop of [MergeWith] on logs that are maps does not panic. *)
Lemma foldl_merge_entry_has_logs es (nb : BatchTrie T) :
  has_logs nb →
  ∃ nb', foldl (merge_entry Hex) (Returns () nb) es = Returns () nb' ∧ has_logs nb' ∧
         changelog nb' = changelog nb ∧ batching nb' = batching nb.
Proof.
  revert nb. induction es as [|entry es IH]; intros nb [Hi Hf]; cbn [foldl].
  - by exists nb.
  - assert (Hstep : ∃ nb1, merge_entry Hex (Returns () nb) entry = Returns () nb1 ∧
                      has_logs nb1 ∧ changelog nb1 = changelog nb ∧
                      batching nb1 = batching nb).
    { simpl.
      destruct (map_assign_Some (finaloplog nb) (Hex (key entry)) entry Hf)
        as (fin' & Hfin & Hfin').
      destruct (map_assign_Some (initialoplog nb) (Hex (key entry)) entry Hi)
        as (init' & Hinit & Hinit').
      destruct (action entry); simpl; rewrite ?Hfin; try by eexists.
      destruct (match map_lookup (initialoplog nb) (Hex (key entry)) with
                | Some _ => _ | None => true end); [|by eexists].
      rewrite Hinit. by eexists. }
    destruct Hstep as (nb1 & -> & Hlogs1 & Hc1 & Hb1).
    destruct (IH nb1 Hlogs1) as (nb' & Hrun & Hlogs' & Hc' & Hb').
    exists nb'. split; [done|]. split; [done|]. split; congruence.
Qed.

(** X8: the result of [MergeWith] on a batch trie whose logs are maps.  It
    does not panic.  It returns [false] exactly when an entry of
    [tobt.initialoplog] disagrees with [bt.finaloplog] or [Clone] fails, and
    then it returns no batch trie; otherwise it returns [true] with a new
    batch trie that has the change log and the [batching] of [bt]. *)
Theorem bt_MergeWith_result (bt tobt : BatchTrie T) :
  has_logs bt →
  ∃ b r bt',
    bt_MergeWith Hex bt tobt = Returns (b, r) bt' ∧
    (b = false ↔
       (∃ toentry, toentry ∈ first_states tobt ∧
                   disagrees Hex (finaloplog bt) toentry) ∨
       (∃ err, trie_Clone (trie bt) = inl err)) ∧
    (b = false → r = None) ∧
    (b = true → ∃ newbt, r = Some newbt ∧ changelog newbt = changelog bt ∧
                         batching newbt = batching bt).
Proof.
  intros [Hi Hf]. unfold bt_MergeWith, first_states.
  pose proof (compare_first_states_cases (finaloplog bt) (initialoplog bt)
                (from_option id [] (initialoplog tobt)) Hi) as Hloop.
  destruct (compare_first_states Hex _ _ _) as [init'|init'|init']; [|done|].
  - destruct Hloop as (_ & Hd). eexists _, _, _. split; [reflexivity|].
    split; [split; [by left | done]|]. by split.
  - destruct Hloop as (Hi' & Hall). unfold bt_Clone.
    destruct (trie_Clone (trie bt)) as [err|tr] eqn:Htr.
    + eexists _, _, _. split; [reflexivity|].
      split; [split; [right; by eexists | done]|]. by split.
    + simpl.
      destruct (foldl_merge_entry_has_logs (from_option id [] (finaloplog tobt)).*2
                  (mkBatchTrie tr (changelog bt) (batching bt) init' (finaloplog bt)))
        as (nb' & -> & _ & Hc & Hb); [by split|].
      eexists _, _, _. split; [reflexivity|]. split; [|split; [done|]].
      * split; [done|]. intros [(toentry & Hin & Hd) | (err & Herr)]; [|done].
        by destruct (Hall toentry Hin).
      * intros _. by exists nb'.
Qed.

(** The first loop of [MergeWith] ends at the first entry that disagrees, or
    after the last one.  The entries before that one have each been assigned
    under their key, where the first-state log had no entry: the log then
    holds, under such a key, the first of them that sits under it. *)
Lemma compare_first_states_visited fin init tos init' :
  compare_first_states Hex fin init tos = Refused init' ∨
  compare_first_states Hex fin init tos = Finished init' →
  ∃ visited rest,
    tos = visited ++ rest ∧
    Forall (λ p : string * Entry, ¬ disagrees Hex fin p.2) visited ∧
    match rest with
    | p :: _ =>
        compare_first_states Hex fin init tos = Refused init' ∧ disagrees Hex fin p.2
    | [] => compare_first_states Hex fin init tos = Finished init'
    end ∧
    ∀ h, map_lookup init' h =
         match map_lookup init h with
         | Some e => Some e
         | None => first_under Hex h visited.*2
         end.
Proof.
  revert init. induction tos as [|[h0 toentry] tos IH]; intros init; simpl.
  - intros [|[= <-]]; [done|]. exists [], []. repeat split; try done.
    intros h. simpl. by destruct (map_lookup init h).
  - assert (Hdec : disagrees Hex fin toentry ∨ ¬ disagrees Hex fin toentry).
    { unfold disagrees. destruct (map_lookup fin (Hex (key toentry))) as [entry|].
      - destruct (bytes_Equal (old toentry) (update entry)) eqn:Heq.
        + right. intros (e & [= <-] & Hne). congruence.
        + left. by exists entry.
      - right. by intros (e & ? & _). }
    destruct (match map_lookup fin (Hex (key toentry)) with
              | Some entry => negb (bytes_Equal (old toentry) (update entry))
              | None => false
              end) eqn:Htest.
    + intros [[= <-]|]; [|done]. exists [], ((h0, toentry) :: tos).
      split; [done|]. split; [done|]. split.
      * split; [done|]. destruct Hdec as [|Hno]; [done|]. exfalso. apply Hno.
        unfold disagrees. destruct (map_lookup fin (Hex (key toentry))) as [entry|];
          [|done]. exists entry. split; [done|].
        by destruct (bytes_Equal (old toentry) (update entry)).
      * intros h. simpl. by destruct (map_lookup init h).
    + assert (Hhere : ¬ disagrees Hex fin toentry).
      { intros (entry & Hl & Hne). by rewrite Hl, Hne in Htest. }
      destruct (map_assign_absent init (Hex (key toentry)) toentry) as [init1|] eqn:Hinit1.
      2:{ by intros [|]. }
      intros Hend. destruct (IH init1 Hend) as (visited & rest & -> & Hagree & Hrest & Hl).
      exists ((h0, toentry) :: visited), rest. split; [done|].
      split; [by constructor|]. split; [done|].
      intros h. rewrite Hl, (map_lookup_assign_absent _ _ _ _ h Hinit1). csimpl.
      destruct (decide (h = Hex (key toentry))) as [->|Hne].
      * rewrite decide_True by done. by destruct (map_lookup init (Hex (key toentry))).
      * rewrite decide_False by done. done.
Qed.

(** X9: what a [MergeWith] that returns [false] leaves of [bt].  The trie,
    the change log, [batching] and the final log of [bt] are as they were.
    The range over [tobt.initialoplog] stopped at the first entry that
    disagrees with [bt.finaloplog], or ran to its end when [Clone] failed;
    every entry it visited before has been assigned in [bt.initialoplog]
    where [bt] had no first state for its key.  So [bt.initialoplog] keeps
    the entries it had and holds, under any other key, the first visited
    entry of that key, and nothing else: it is unchanged only when no
    visited entry has a key that is new to it. *)
Theorem bt_MergeWith_false_frame (bt tobt : BatchTrie T) r bt' :
  bt_MergeWith Hex bt tobt = Returns (false, r) bt' →
  trie bt' = trie bt ∧ changelog bt' = changelog bt ∧ batching bt' = batching bt ∧
  finaloplog bt' = finaloplog bt ∧
  ∃ visited rest,
    from_option id [] (initialoplog tobt) = visited ++ rest ∧
    Forall (λ p : string * Entry, ¬ disagrees Hex (finaloplog bt) p.2) visited ∧
    match rest with
    | p :: _ => disagrees Hex (finaloplog bt) p.2
    | [] => ∃ err, trie_Clone (trie bt) = inl err
    end ∧
    ∀ h, map_lookup (initialoplog bt') h =
         match map_lookup (initialoplog bt) h with
         | Some e => Some e
         | None => first_under Hex h visited.*2
         end.
Proof.
  unfold bt_MergeWith.
  pose proof (compare_first_states_visited (finaloplog bt) (initialoplog bt)
                (from_option id [] (initialoplog tobt))) as Hvisited.
  destruct (compare_first_states Hex _ _ _) as [init'|init'|init'] eqn:Hloop; [|done|].
  - intros [= <- <-]. simpl. repeat split; try done.
    destruct (Hvisited init' (or_introl eq_refl))
      as (visited & rest & Htos & Hagree & Hrest & Hl).
    exists visited, rest. split; [done|]. split; [done|]. split; [|done].
    destruct rest as [|p rest]; [done | by destruct Hrest].
  - unfold bt_Clone. destruct (trie_Clone (trie bt)) as [err|tr] eqn:Htr.
    + intros [= <- <-]. simpl. repeat split; try done.
      destruct (Hvisited init' (or_intror eq_refl))
        as (visited & rest & Htos & Hagree & Hrest & Hl).
      exists visited, rest. split; [done|]. split; [done|]. split; [|done].
      destruct rest as [|p rest]; [by exists err | by destruct Hrest].
    + by destruct (foldl _ _ _).
Qed.

(** One round of the second loop writes its entry under the [Hex] of the
    entry's key, in the final log for a write and in the first-state log for
    a [Get], and nothing else in the logs. *)
Lemma merge_entry_logs (nb nb1 : BatchTrie T) entry h :
  merge_entry Hex (Returns () nb) entry = Returns () nb1 →
  map_lookup (finaloplog nb1) h =
    (if decide (h = Hex (key entry) ∧ action entry ≠ Get) then Some entry
     else map_lookup (finaloplog nb) h) ∧
  map_lookup (initialoplog nb1) h =
    (if decide (h = Hex (key entry) ∧ action entry = Get) then Some entry
     else map_lookup (initialoplog nb) h).
Proof.
  simpl. destruct (action entry) eqn:Hact; simpl.
  - destruct (map_assign (finaloplog nb) _ entry) as [fin'|] eqn:Hfin; [|done].
    intros [= <-]. simpl. rewrite (map_lookup_assign _ _ _ _ h Hfin).
    split; [|by rewrite decide_False by (by intros [])].
    destruct (decide (h = Hex (key entry))); [by rewrite decide_True|].
    by rewrite decide_False by (by intros []).
  - destruct (map_assign (finaloplog nb) _ entry) as [fin'|] eqn:Hfin; [|done].
    intros [= <-]. simpl. rewrite (map_lookup_assign _ _ _ _ h Hfin).
    split; [|by rewrite decide_False by (by intros [])].
    destruct (decide (h = Hex (key entry))); [by rewrite decide_True|].
    by rewrite decide_False by (by intros []).
  - destruct (map_assign (finaloplog nb) _ entry) as [fin'|] eqn:Hfin; [|done].
    intros [= <-]. simpl. rewrite (map_lookup_assign _ _ _ _ h Hfin).
    split; [|by rewrite decide_False by (by intros [])].
    destruct (decide (h = Hex (key entry))); [by rewrite decide_True|].
    by rewrite decide_False by (by intros []).
  - replace (match map_lookup (initialoplog nb) (Hex (key entry)) with
             | Some _ => true | None => true end) with true
      by (by destruct (map_lookup _ _)).
    destruct (map_assign (initialoplog nb) _ entry) as [init'|] eqn:Hinit; [|done].
    intros [= <-]. simpl. rewrite (map_lookup_assign _ _ _ _ h Hinit).
    split; [by rewrite decide_False by (by intros [])|].
    destruct (decide (h = Hex (key entry))); [by rewrite decide_True|].
    by rewrite decide_False by (by intros []).
Qed.

(** The second loop over entries of distinct keys leaves each entry where
    its round wrote it. *)
Lemma foldl_merge_entry_logs es (nb nb' : BatchTrie T) :
  NoDup (Hex <$> (key <$> es)) →
  foldl (merge_entry Hex) (Returns () nb) es = Returns () nb' →
  ∀ e, e ∈ es →
    if decide (action e = Get)
    then map_lookup (initialoplog nb') (Hex (key e)) = Some e
    else map_lookup (finaloplog nb') (Hex (key e)) = Some e.
Proof.
  revert nb. induction es as [|entry es IH]; intros nb Hnd Hrun e Hin.
  - by apply elem_of_nil in Hin.
  - rewrite !fmap_cons in Hnd. apply NoDup_cons in Hnd as [Hfresh Hnd].
    cbn [foldl] in Hrun.
    destruct (merge_entry Hex (Returns () nb) entry) as [[] nb1|nb1] eqn:Hstep.
    2:{ exfalso. clear -Hrun. induction es as [|e0 es IH]; [done|]. by apply IH. }
    apply elem_of_cons in Hin as [->|Hin]; [|by apply (IH nb1)].
    assert (Hkeep : ∀ es' (a a' : BatchTrie T),
              Hex (key entry) ∉ Hex <$> (key <$> es') →
              foldl (merge_entry Hex) (Returns () a) es' = Returns () a' →
              map_lookup (finaloplog a') (Hex (key entry))
                = map_lookup (finaloplog a) (Hex (key entry)) ∧
              map_lookup (initialoplog a') (Hex (key entry))
                = map_lookup (initialoplog a) (Hex (key entry))).
    { clear. induction es' as [|e0 es' IH']; intros a a' Hout Hfold.
      - by injection Hfold as <-.
      - rewrite !fmap_cons in Hout. apply not_elem_of_cons in Hout as [Hne Hout].
        cbn [foldl] in Hfold.
        destruct (merge_entry Hex (Returns () a) e0) as [[] a1|a1] eqn:Hs.
        2:{ exfalso. clear -Hfold. induction es' as [|e1 es' IH]; [done|]. by apply IH. }
        destruct (IH' a1 a' Hout Hfold) as [-> ->].
        destruct (merge_entry_logs _ _ _ (Hex (key entry)) Hs) as [-> ->].
        by rewrite !decide_False by (by intros []). }
    destruct (Hkeep es nb1 nb' Hfresh Hrun) as [Hf Hi].
    destruct (merge_entry_logs _ _ _ (Hex (key entry)) Hstep) as [Hf1 Hi1].
    destruct (decide (action entry = Get)) as [Hget|Hput].
    + rewrite Hi, Hi1. by rewrite decide_True.
    + rewrite Hf, Hf1. by rewrite decide_True.
Qed.

(** X10: a [MergeWith] that returns [true] has written into the logs of
    [bt], which are the logs of the new batch trie: for a [tobt] whose final
    log is keyed, every final entry of [tobt] is then in the final log, if it
    is the entry of a write, or in the first-state log, in place of the first
    state there, if it is a [Get] entry.  The trie of [bt] is as it was. *)
Theorem bt_MergeWith_true_logs (bt tobt newbt bt' : BatchTrie T) :
  keyed Hex (finaloplog tobt) →
  bt_MergeWith Hex bt tobt = Returns (true, Some newbt) bt' →
  trie bt' = trie bt ∧
  initialoplog bt' = initialoplog newbt ∧ finaloplog bt' = finaloplog newbt ∧
  ∀ h e, map_lookup (finaloplog tobt) h = Some e →
    if decide (action e = Get)
    then map_lookup (initialoplog newbt) h = Some e
    else map_lookup (finaloplog newbt) h = Some e.
Proof.
  intros Hk. unfold bt_MergeWith.
  destruct (compare_first_states Hex _ _ _) as [init'|init'|init']; [done|done|].
  destruct (bt_Clone bt) as [err|cloned]; [done|].
  destruct (foldl _ _ _) as [[] nb'|nb'] eqn:Hfold; [|done].
  intros [= <- <-]. simpl. repeat split; try done.
  intros h e Hl. destruct (finaloplog tobt) as [l|]; simpl in *; [|done].
  destruct Hk as [Hnd Hk]. apply assoc_lookup_elem in Hl.
  rewrite Forall_forall in Hk. pose proof (Hk _ Hl) as Hh. simpl in Hh. subst h.
  eapply foldl_merge_entry_logs; [|exact Hfold|].
  - rewrite <- keyed_keys; [done | by apply Forall_forall].
  - apply list_elem_of_fmap. by exists (Hex (key e), e).
Qed.

End Merge.

Section MergeContent.
Context `{LawfulTrie T}.
Variable Hex : bytes → string.
Hypothesis Hex_inj : ∀ a b, Hex a = Hex b → a = b.

Lemma merge_entry_content (nb nb1 : BatchTrie T) entry k :
  merge_entry Hex (Returns () nb) entry = Returns () nb1 →
  content (trie nb1) k =
    if decide (k = key entry) then merged_value entry (content (trie nb) k)
    else content (trie nb) k.
Proof.
  unfold merged_value. simpl. destruct (action entry); simpl.
  - destruct (map_assign (finaloplog nb) _ entry); [|done].
    intros [= <-]. simpl. rewrite put_content. by destruct (decide _).
  - destruct (map_assign (finaloplog nb) _ entry); [|done].
    intros [= <-]. simpl. rewrite put_content. by destruct (decide _).
  - destruct (map_assign (finaloplog nb) _ entry); [|done].
    intros [= <-]. simpl. rewrite del_content. by destruct (decide _).
  - destruct (match map_lookup (initialoplog nb) (Hex (key entry)) with
              | Some _ => _ | None => true end).
    + destruct (map_assign (initialoplog nb) _ entry); [|done].
      intros [= <-]. simpl. by destruct (decide _).
    + intros [= <-]. by destruct (decide _).
Qed.

Lemma first_entry_None k es : k ∉ key <$> es → first_entry k es = None.
Proof.
  induction es as [|e es IH]; [done|]. rewrite fmap_cons. simpl.
  intros [Hne Hout]%not_elem_of_cons. rewrite decide_False by done. by apply IH.
Qed.

(** The second loop over entries of distinct keys leaves under each key what
    its entry asks for, and the other keys as they were. *)
Lemma foldl_merge_entry_content es (nb nb' : BatchTrie T) k :
  NoDup (key <$> es) →
  foldl (merge_entry Hex) (Returns () nb) es = Returns () nb' →
  content (trie nb') k =
    match first_entry k es with
    | Some e => merged_value e (content (trie nb) k)
    | None => content (trie nb) k
    end.
Proof.
  revert nb. induction es as [|entry es IH]; intros nb Hnd Hrun.
  - by injection Hrun as <-.
  - rewrite fmap_cons in Hnd. apply NoDup_cons in Hnd as [Hfresh Hnd].
    cbn [foldl] in Hrun.
    destruct (merge_entry Hex (Returns () nb) entry) as [[] nb1|nb1] eqn:Hstep.
    2:{ exfalso. clear -Hrun. induction es as [|e0 es IH]; [done|]. by apply IH. }
    rewrite (IH nb1 Hnd Hrun), (merge_entry_content _ _ _ k Hstep). simpl.
    destruct (decide (key entry = k)) as [<-|Hne].
    + rewrite first_entry_None by done. by rewrite decide_True.
    + by rewrite decide_False by done.
Qed.

Lemma assoc_lookup_first_entry (l : list (string * Entry)) k :
  Forall (λ p : string * Entry, p.1 = Hex (key p.2)) l →
  assoc_lookup (Hex k) l = first_entry k l.*2.
Proof using Hex_inj.
  induction 1 as [|[h e] l Hh _ IH]; [done|]. csimpl in *. subst h.
  destruct (decide (key e = k)) as [<-|Hne].
  - by rewrite decide_True.
  - rewrite decide_False; [done|]. by intros ?%Hex_inj.
Qed.

(** X19: the trie of the batch trie that [MergeWith] returns.  Over a trie
    that keeps to [LawfulTrie] and whose [Clone] copies the content, and for
    a [tobt] whose final log is keyed, the new trie is the trie of [bt] with
    the final entries of [tobt] applied: a key whose final entry is a
    [Delete] is absent, a key whose final entry is an [Update] or an
    [Insert] holds the [update] of the entry, and every other key holds what
    it holds in [bt]. *)
Theorem bt_MergeWith_trie_content (bt tobt newbt bt' : BatchTrie T) :
  (∀ t t' : T, trie_Clone t = inr t' → ∀ k, content t' k = content t k) →
  keyed Hex (finaloplog tobt) →
  bt_MergeWith Hex bt tobt = Returns (true, Some newbt) bt' →
  ∀ k, content (trie newbt) k = merged Hex (content (trie bt)) (finaloplog tobt) k.
Proof using Hex_inj.
  intros Hclone Hk. unfold bt_MergeWith, bt_Clone.
  destruct (compare_first_states Hex _ _ _) as [init'|init'|init']; [done|done|].
  destruct (trie_Clone (trie bt)) as [err|tr] eqn:Htr; [done|].
  destruct (foldl _ _ _) as [[] nb'|nb'] eqn:Hfold; [|done].
  intros [= <- <-] k. unfold merged.
  destruct (finaloplog tobt) as [l|]; simpl in *.
  - destruct Hk as [Hnd Hk].
    rewrite (foldl_merge_entry_content _ _ _ k) with (2 := Hfold).
    + simpl. rewrite (assoc_lookup_first_entry _ _ Hk), (Hclone _ _ Htr). done.
    + rewrite (keyed_keys Hex _ Hk) in Hnd. by apply NoDup_fmap_1 in Hnd.
  - injection Hfold as <-. simpl. by apply Hclone.
Qed.

End MergeContent.

(** ** The properties on a batch over the map-backed trie *)

Lemma NewBatchTrie_keyed {T : Type} (Hex : bytes → string) (t : T) :
  has_logs (NewBatchTrie t) ∧ keyed Hex (initialoplog (NewBatchTrie t)) ∧
  keyed Hex (finaloplog (NewBatchTrie t)).
Proof. repeat split; try done; constructor. Qed.

Lemma bt_run_keeps_logs_witness :
  bt_run hex batch_ops (bt_BeginBatch (NewBatchTrie stocked)) = Returns () batch_end ∧
  has_logs batch_end.
Proof.
  destruct (bt_run_keeps_logs hex batch_ops (bt_BeginBatch (NewBatchTrie stocked)))
    as (bt' & Hrun & Hlogs & _).
  - split; discriminate.
  - split; constructor.
  - split; constructor.
  - unfold batch_end. rewrite Hrun. by split.
Defined.

(** The entry of the first [Put(a,2)] outlives the [Del(a)] that follows. *)
Lemma initialoplog_write_once_witness :
  map_lookup (initialoplog batch_end) (hex bkey_a) =
    Some (mkEntry Update bkey_a bval_1 bval_2).
Proof.
  apply (initialoplog_write_once hex
           [BtPut bkey_b bval_3; BtDel bkey_a; BtGet bkey_b]
           (left_by (bt_Put hex (bt_BeginBatch (NewBatchTrie stocked)) bkey_a bval_2))
           batch_end).
  - reflexivity.
  - reflexivity.
Defined.

(** A [Get(a)] after the batch leaves a [Get] entry in the final log, where
    the batch had left the entry of [Del(a)]. *)
Lemma finaloplog_last_operation_witness :
  action <$> map_lookup (finaloplog batch_end) (hex bkey_a) = Some Delete ∧
  action <$> map_lookup (finaloplog (left_by (bt_Get hex batch_end bkey_a))) (hex bkey_a)
    = Some Get.
Proof.
  split; [reflexivity|].
  pose proof (finaloplog_last_operation hex (BtGet bkey_a) batch_end
                (left_by (bt_Get hex batch_end bkey_a)) _ eq_refl) as Hlast.
  simpl in Hlast. destruct Hlast as (Hl & _). exact (f_equal (fmap action) Hl).
Defined.

Lemma changelog_grows_in_batch_witness :
  batching batch_end = true ∧ length (changelog batch_end) ≤ 3 ∧
  changelog (left_by (bt_run hex batch_ops (NewBatchTrie stocked))) = [].
Proof.
  assert (Hin : bt_run hex batch_ops (bt_BeginBatch (NewBatchTrie stocked))
                = Returns () batch_end) by reflexivity.
  assert (Hout : bt_run hex batch_ops (NewBatchTrie stocked)
                 = Returns () (left_by (bt_run hex batch_ops (NewBatchTrie stocked))))
    by reflexivity.
  destruct (changelog_grows_in_batch hex batch_ops _ _ Hin)
    as (Hb & new & Hlog & _ & Hlen & _).
  destruct (changelog_grows_in_batch hex batch_ops _ _ Hout)
    as (_ & new' & Hlog' & _ & _ & Hoff).
  split; [exact Hb|]. split.
  - rewrite Hlog. simpl. exact Hlen.
  - rewrite Hlog', (Hoff eq_refl). reflexivity.
Defined.

(** The batch of [batch_end] committed, then [Put(b,1)]: the rollback keeps
    the trie. *)
Lemma bt_Commit_closes_batch_witness :
  ∃ bt', bt_run hex [BtPut bkey_b bval_1] (bt_Commit batch_end) = Returns () bt' ∧
         trie bt' = [(bkey_b, bval_1)] ∧
         trie (bt_RollBack hex bt') = [(bkey_b, bval_1)].
Proof.
  assert (Hrun : ∃ bt',
            bt_run hex [BtPut bkey_b bval_1] (bt_Commit batch_end) = Returns () bt' ∧
            trie bt' = [(bkey_b, bval_1)])
    by (eexists; split; reflexivity).
  destruct Hrun as (bt' & Hrun & Htrie). exists bt'. split; [exact Hrun|].
  split; [exact Htrie|].
  destruct (bt_Commit_closes_batch hex [BtPut bkey_b bval_1] batch_end bt' Hrun)
    as (_ & _ & -> & _).
  exact Htrie.
Defined.

Lemma bt_RelatedTo_shared_write_witness :
  bt_RelatedTo hex reader writer = true ∧ bt_RelatedTo hex writer reader = true ∧
  bt_RelatedTo hex reader reader = false.
Proof.
  assert (Hr : keyed hex (finaloplog reader))
    by (split; [repeat constructor; by intros ?%elem_of_nil | by repeat constructor]).
  assert (Hw : keyed hex (finaloplog writer))
    by (split; [repeat constructor; by intros ?%elem_of_nil | by repeat constructor]).
  destruct (bt_RelatedTo_shared_write hex reader writer Hr Hw) as (Hiff & Hsym & _).
  destruct (bt_RelatedTo_shared_write hex reader reader Hr Hr) as (_ & _ & Hgets).
  assert (Hrel : bt_RelatedTo hex reader writer = true).
  { apply Hiff. exists (hex bkey_a), (mkEntry Get bkey_a bval_1 bval_1),
      (mkEntry Update bkey_a bval_1 bval_2).
    split; [reflexivity|]. split; [reflexivity|]. by right. }
  split; [exact Hrel|]. split; [by rewrite <- Hsym|].
  apply Hgets; intros h e; simpl; case_decide; try done; by intros [= <-].
Defined.

Lemma bt_RollBack_undoes_batch_witness :
  trie batch_end = [(bkey_b, bval_3)] ∧
  mem_lookup bkey_a (trie (bt_RollBack hex batch_end)) = Some bval_1 ∧
  mem_lookup bkey_b (trie (bt_RollBack hex batch_end)) = None.
Proof.
  assert (Hrun : bt_run hex batch_ops (bt_BeginBatch (NewBatchTrie stocked))
                 = Returns () batch_end) by reflexivity.
  destruct (bt_RollBack_undoes_batch hex hex_inj batch_ops (NewBatchTrie stocked)
              batch_end eq_refl Hrun) as (Hcontent & _).
  split; [reflexivity|]. split; [apply (Hcontent bkey_a) | apply (Hcontent bkey_b)].
Defined.

(** [reader] has read [a = 1], which is the [old] of the write of [writer]:
    the merge goes through.  [merge_into] has written [k], which [merge_from]
    read as absent: the merge is refused. *)
Lemma bt_MergeWith_result_witness :
  (∃ newbt bt', bt_MergeWith hex reader writer = Returns (true, Some newbt) bt') ∧
  (∃ bt', bt_MergeWith hex merge_into merge_from = Returns (false, None) bt').
Proof.
  split.
  - destruct (bt_MergeWith_result hex reader writer) as (b & r & bt' & Hm & _ & _ & Htrue);
      [by split|].
    assert (Hb : b = true).
    { assert (Hc : ∃ x y, bt_MergeWith hex reader writer = Returns (true, x) y)
        by (by eexists _, _).
      destruct Hc as (x & y & Hc). rewrite Hc in Hm. by injection Hm. }
    destruct (Htrue Hb) as (newbt & -> & _). subst b. by exists newbt, bt'.
  - destruct (bt_MergeWith_result hex merge_into merge_from)
      as (b & r & bt' & Hm & _ & Hfalse & _); [by split|].
    assert (Hb : b = false).
    { assert (Hc : ∃ x y, bt_MergeWith hex merge_into merge_from = Returns (false, x) y)
        by (by eexists _, _).
      destruct Hc as (x & y & Hc). rewrite Hc in Hm. by injection Hm. }
    rewrite (Hfalse Hb) in Hm. subst b. by exists bt'.
Defined.

Lemma bt_MergeWith_false_frame_witness :
  finaloplog (left_by (bt_MergeWith hex merge_into merge_from)) = finaloplog merge_into ∧
  map_lookup (initialoplog merge_into) (hex bkey_a) = None ∧
  map_lookup (initialoplog (left_by (bt_MergeWith hex merge_into merge_from)))
    (hex bkey_a) = Some (mkEntry Get bkey_a None None).
Proof.
  destruct (bt_MergeWith_false_frame hex merge_into merge_from None
              (left_by (bt_MergeWith hex merge_into merge_from)) eq_refl)
    as (_ & _ & _ & Hfin & _).
  split; [exact Hfin|]. split; reflexivity.
Defined.

Lemma bt_MergeWith_true_logs_witness :
  ∃ newbt bt', bt_MergeWith hex reader writer = Returns (true, Some newbt) bt' ∧
               map_lookup (finaloplog newbt) (hex bkey_a) =
                 Some (mkEntry Update bkey_a bval_1 bval_2).
Proof.
  assert (Hm : ∃ newbt bt',
            bt_MergeWith hex reader writer = Returns (true, Some newbt) bt')
    by (by eexists _, _).
  destruct Hm as (newbt & bt' & Hm). exists newbt, bt'. split; [exact Hm|].
  assert (Hw : keyed hex (finaloplog writer))
    by (split; [repeat constructor; by intros ?%elem_of_nil | by repeat constructor]).
  destruct (bt_MergeWith_true_logs hex reader writer newbt bt' Hw Hm)
    as (_ & _ & _ & Hlogs).
  exact (Hlogs (hex bkey_a) (mkEntry Update bkey_a bval_1 bval_2) eq_refl).
Defined.

(** [writer] has put [a = 2] over the [a = 1] that [reader] holds. *)
Lemma bt_MergeWith_trie_content_witness :
  ∃ newbt bt', bt_MergeWith hex reader writer = Returns (true, Some newbt) bt' ∧
               content (trie newbt) bkey_a = Some bval_2 ∧
               content (trie newbt) bkey_b = None.
Proof.
  assert (Hm : ∃ newbt bt',
            bt_MergeWith hex reader writer = Returns (true, Some newbt) bt')
    by (by eexists _, _).
  destruct Hm as (newbt & bt' & Hm). exists newbt, bt'. split; [exact Hm|].
  assert (Hw : keyed hex (finaloplog writer))
    by (split; [repeat constructor; by intros ?%elem_of_nil | by repeat constructor]).
  assert (Hclone : ∀ t t' : MemTrie,
            trie_Clone t = inr t' → ∀ k, content t' k = content t k)
    by (by intros t t' [= <-]).
  pose proof (bt_MergeWith_trie_content hex hex_inj reader writer newbt bt' Hclone Hw Hm)
    as Hcontent.
  split; [exact (Hcontent bkey_a) | exact (Hcontent bkey_b)].
Defined.

(** ** HashDomains *)

Section Domains.
Variable Sha3256 : bytes → bytes.
Hypothesis Sha3256_length : ∀ b, length (Sha3256 b) = 32.

Lemma first6_domain v :
  first6 (Sha3256 (String.list_byte_of_string v)) = Some (domain_of Sha3256 v).
Proof using Sha3256_length.
  unfold first6. rewrite decide_True; [done|]. rewrite Sha3256_length. lia.
Qed.

Lemma domain_of_length v : length (domain_of Sha3256 v) = 6.
Proof using Sha3256_length.
  unfold domain_of. rewrite length_take, Sha3256_length. lia.
Qed.

Lemma concat_domains_length domains :
  length (concat (domain_of Sha3256 <$> domains)) = 6 * length domains.
Proof using Sha3256_length.
  induction domains as [|v domains IH]; csimpl; [done|].
  rewrite length_app, domain_of_length, IH. lia.
Qed.

(** Writing a domain inside the array replaces a segment of it. *)
Lemma write_domain_segment pos domain a :
  pos + length domain ≤ length a →
  write_domain pos domain a =
    Some (take pos a ++ domain ++ drop (pos + length domain) a).
Proof.
  revert pos a. induction domain as [|x domain IH]; intros pos a Hlen; simpl in *.
  - by rewrite Nat.add_0_r, take_drop.
  - unfold array_set. rewrite decide_True by lia. simpl. unfold bytes.
    rewrite IH by (rewrite length_insert; lia). f_equal.
    rewrite (take_S_r _ _ x) by (apply list_lookup_insert_eq; lia).
    rewrite take_insert_ge by lia. rewrite drop_insert_lt by lia.
    rewrite <- app_assoc. simpl. by rewrite Nat.add_succ_r.
Qed.

Lemma hash_domains_from_zeros k domains prefix :
  length prefix = k * 6 → k + length domains ≤ 4 →
  hash_domains_from Sha3256 k domains (prefix ++ replicate (24 - k * 6) Byte.x00) =
    Some (prefix ++ concat (domain_of Sha3256 <$> domains)
            ++ replicate (24 - (k + length domains) * 6) Byte.x00).
Proof using Sha3256_length.
  revert k prefix. induction domains as [|v domains IH]; intros k prefix Hp Hk;
    simpl in *.
  - by rewrite Nat.add_0_r.
  - rewrite first6_domain. simpl.
    pose proof (domain_of_length v) as Hd.
    rewrite write_domain_segment
      by (rewrite length_app, length_replicate; lia). simpl.
    rewrite Nat.add_0_r.
    rewrite take_app_length' by lia.
    rewrite drop_app_ge by lia. rewrite drop_replicate.
    replace (24 - k * 6 - (k * 6 + length (domain_of Sha3256 v) - length prefix))
      with (24 - S k * 6) by lia.
    rewrite app_assoc. rewrite (IH (S k)); [|rewrite length_app; lia | lia].
    rewrite <- !app_assoc.
    by replace (k + S (length domains)) with (S k + length domains) by lia.
Qed.

Lemma HashDomainsPrefix_concat domains :
  length domains ≤ 4 →
  HashDomainsPrefix Sha3256 domains = Some (concat (domain_of Sha3256 <$> domains)).
Proof using Sha3256_length.
  intros Hlen. unfold HashDomainsPrefix. change (24 / 6) with 4.
  rewrite decide_False by lia.
  assert (Hfold : ∀ acc,
    foldl (λ a v, a ≫= λ a', first6 (Sha3256 (String.list_byte_of_string v)) ≫=
                   λ domain, Some (a' ++ domain)) (Some acc) domains
    = Some (acc ++ concat (domain_of Sha3256 <$> domains))).
  { clear Hlen. induction domains as [|v domains IH]; intros acc; simpl.
    - by rewrite app_nil_r.
    - rewrite first6_domain. simpl. rewrite IH. by rewrite <- app_assoc. }
  apply Hfold.
Qed.

(** X11: [HashDomains] and [HashDomainsPrefix] panic exactly when they are
    given more than four domains.  Otherwise [HashDomains] returns 24 bytes
    and [HashDomainsPrefix] six bytes for each domain, the first six bytes of
    the hash of each domain in order. *)
Theorem HashDomains_lengths domains :
  (HashDomains Sha3256 domains = None ↔ 4 < length domains) ∧
  (HashDomainsPrefix Sha3256 domains = None ↔ 4 < length domains) ∧
  (length domains ≤ 4 →
   ∃ key prefix,
     HashDomains Sha3256 domains = Some key ∧ length key = 24 ∧
     HashDomainsPrefix Sha3256 domains = Some prefix ∧
     length prefix = 6 * length domains ∧
     prefix = concat (domain_of Sha3256 <$> domains)).
Proof using Sha3256_length.
  assert (Hkey : length domains ≤ 4 →
            HashDomains Sha3256 domains =
              Some (concat (domain_of Sha3256 <$> domains)
                      ++ replicate (24 - length domains * 6) Byte.x00)).
  { intros Hlen. unfold HashDomains. change (24 / 6) with 4.
    rewrite decide_False by lia.
    apply (hash_domains_from_zeros 0 domains []); [done | lia]. }
  pose proof (concat_domains_length domains) as Hconcat.
  split; [|split].
  - split.
    + intros Hnone. destruct (decide (4 < length domains)); [done|].
      rewrite Hkey in Hnone by lia. done.
    + intros Hlen. unfold HashDomains. change (24 / 6) with 4. by rewrite decide_True.
  - split.
    + intros Hnone. destruct (decide (4 < length domains)); [done|].
      rewrite HashDomainsPrefix_concat in Hnone by lia. done.
    + intros Hlen. unfold HashDomainsPrefix. change (24 / 6) with 4.
      by rewrite decide_True.
  - intros Hlen. eexists _, _. split; [by apply Hkey|].
    split; [rewrite length_app, length_replicate, Hconcat; lia|].
    split; [by apply HashDomainsPrefix_concat|]. done.
Qed.

(** X12: [HashDomainsPrefix] is [HashDomains] without its tail of zeros:
    for at most four domains, the key of [HashDomains] is the key of
    [HashDomainsPrefix] followed by zero bytes up to 24. *)
Theorem HashDomains_is_padded_prefix domains prefix :
  HashDomainsPrefix Sha3256 domains = Some prefix →
  HashDomains Sha3256 domains =
    Some (prefix ++ replicate (24 - length prefix) Byte.x00).
Proof using Sha3256_length.
  intros Hprefix.
  assert (Hlen : length domains ≤ 4).
  { destruct (decide (4 < length domains)) as [Hgt|]; [|lia].
    unfold HashDomainsPrefix in Hprefix. change (24 / 6) with 4 in Hprefix.
    by rewrite decide_True in Hprefix. }
  rewrite HashDomainsPrefix_concat in Hprefix by done. injection Hprefix as <-.
  unfold HashDomains. change (24 / 6) with 4. rewrite decide_False by lia.
  rewrite concat_domains_length.
  replace (6 * length domains) with (length domains * 6) by lia.
  apply (hash_domains_from_zeros 0 domains []); [done | lia].
Qed.

Lemma HashDomains_concat domains :
  length domains ≤ 4 →
  HashDomains Sha3256 domains =
    Some (concat (domain_of Sha3256 <$> domains)
            ++ replicate (24 - length domains * 6) Byte.x00).
Proof using Sha3256_length.
  intros Hlen. unfold HashDomains. change (24 / 6) with 4.
  rewrite decide_False by lia.
  apply (hash_domains_from_zeros 0 domains []); [done | lia].
Qed.

(** X20: the keys of the variables below a domain share the prefix of the
    domain.  For at most four domains in all, the key that [HashDomains]
    gives to [domains] followed by [more], and the key that
    [HashDomainsPrefix] gives to them, both begin with the key that
    [HashDomainsPrefix] gives to [domains]. *)
Theorem HashDomains_shares_prefix domains more :
  length (domains ++ more) ≤ 4 →
  ∃ prefix rest rest',
    HashDomainsPrefix Sha3256 domains = Some prefix ∧
    HashDomains Sha3256 (domains ++ more) = Some (prefix ++ rest) ∧
    HashDomainsPrefix Sha3256 (domains ++ more) = Some (prefix ++ rest').
Proof using Sha3256_length.
  intros Hlen. pose proof Hlen as Hlen'. rewrite length_app in Hlen'.
  eexists _, _, _. split; [apply HashDomainsPrefix_concat; lia|].
  rewrite HashDomains_concat, HashDomainsPrefix_concat by done.
  rewrite fmap_app, concat_app, <- app_assoc. done.
Qed.

End Domains.

Lemma padded32_length b : length (padded32 b) = 32.
Proof. unfold padded32. rewrite length_take, length_app, length_replicate. lia. Qed.

Lemma HashDomains_lengths_witness :
  HashDomains padded32 ["a"; "b"; "c"; "d"; "e"] = None ∧
  ∃ key, HashDomains padded32 ["a"; "b"] = Some key ∧ length key = 24.
Proof.
  destruct (HashDomains_lengths padded32 padded32_length ["a"; "b"; "c"; "d"; "e"])
    as ([_ Hpanic] & _).
  destruct (HashDomains_lengths padded32 padded32_length ["a"; "b"])
    as (_ & _ & Hlen).
  split; [apply Hpanic; simpl; lia|].
  destruct Hlen as (key & prefix & Hkey & Hlen & _); [simpl; lia|]. by exists key.
Defined.

Lemma HashDomains_is_padded_prefix_witness :
  ∃ prefix, HashDomainsPrefix padded32 ["a"; "b"] = Some prefix ∧
            HashDomains padded32 ["a"; "b"] = Some (prefix ++ replicate 12 Byte.x00).
Proof.
  eexists. split; [reflexivity|].
  apply (HashDomains_is_padded_prefix padded32 padded32_length ["a"; "b"]). reflexivity.
Defined.

Lemma HashDomains_shares_prefix_witness :
  ∃ prefix rest,
    HashDomainsPrefix padded32 ["contract"] = Some prefix ∧
    HashDomains padded32 ["contract"; "balance"] = Some (prefix ++ rest).
Proof.
  destruct (HashDomains_shares_prefix padded32 padded32_length ["contract"] ["balance"])
    as (prefix & rest & _ & Hprefix & Hkey & _); [simpl; lia|].
  by exists prefix, rest.
Defined.

End trie_coverage.

(** * More of the transactional DB *)

Module mvccdbv2_coverage.
Import mvccdbv2 mvccdbv2_examples mvccdbv2_facts.

Section Guards.
Context `{Storage St}.

(** Outside a transaction every operation of a transaction is refused. *)
Lemma not_in_transaction_refuses db (s : St) :
  isInTransaction db = false →
  Commit db s = (Some ErrTransactionNotStarted, db, s) ∧
  RollBack db s = (Some ErrTransactionNotStarted, db, s) ∧
  (∀ t, Prepare db t = ((None, Some ErrTransactionNotStarted), db)) ∧
  (∀ anc, CheckAndUpdate db anc = (([], Some ErrTransactionNotStarted), db, anc)) ∧
  Reset db = (Some ErrTransactionNotStarted, db).
Proof.
  intros HinTx. unfold Commit, RollBack, Prepare, CheckAndUpdate. rewrite HinTx. simpl.
  repeat split; try done. destruct db. simpl in *. by subst.
Qed.

(** X13: [Commit] and [RollBack] end the transaction.  After either has
    succeeded on a root DB, [Commit], [RollBack], [Prepare], [CheckAndUpdate]
    and [Reset] are refused with [ErrTransactionNotStarted] and change
    nothing, and [Begin] succeeds again. *)
Theorem transaction_ends db (s : St) db' s' :
  Commit db s = (None, db', s') ∨ RollBack db s = (None, db', s') →
  Commit db' s' = (Some ErrTransactionNotStarted, db', s') ∧
  RollBack db' s' = (Some ErrTransactionNotStarted, db', s') ∧
  (∀ t, Prepare db' t = ((None, Some ErrTransactionNotStarted), db')) ∧
  (∀ anc, CheckAndUpdate db' anc = (([], Some ErrTransactionNotStarted), db', anc)) ∧
  Reset db' = (Some ErrTransactionNotStarted, db') ∧
  Begin db' = (None, set_isInTransaction db' true).
Proof.
  intros Hend.
  assert (Hflags : isInTransaction db' = false ∧ isPreparedDB db' = false).
  { destruct Hend as [Hc|Hr].
    - unfold Commit in Hc. destruct (isInTransaction db); simpl in Hc; [|done].
      destruct (isPreparedDB db) eqn:Hp; simpl in Hc; [done|].
      destruct (IsPreparedDBDirty db); [done|]. by injection Hc as <- <-.
    - unfold RollBack in Hr. destruct (isInTransaction db); simpl in Hr; [|done].
      destruct (isPreparedDB db) eqn:Hp; simpl in Hr; [done|].
      injection Hr as <- <-. split; [done|]. by destruct db. }
  destruct Hflags as [HinTx Hprep].
  destruct (not_in_transaction_refuses db' s' HinTx) as (? & ? & ? & ? & ?).
  repeat split; try done. unfold Begin. by rewrite HinTx, Hprep.
Qed.

(** X14: the operations of the root are refused on a prepared DB, and the
    operations of a prepared DB on the root.  On a DB handed back by
    [Prepare], [Commit] fails with [ErrUnsupportedCommitInPreparedDB] and
    [RollBack] with [ErrUnsupportedRollBackInPreparedDB]; on a DB in a
    transaction that is not prepared, [CheckAndUpdate] and [Reset] fail with
    [ErrDisallowedCallingInNoPreparedDB]; the DB and the storage stay as they
    were. *)
Theorem operations_refused_by_kind (s : St) :
  (∀ parent t c parent', Prepare parent t = ((Some c, None), parent') →
     Commit c s = (Some ErrUnsupportedCommitInPreparedDB, c, s) ∧
     RollBack c s = (Some ErrUnsupportedRollBackInPreparedDB, c, s)) ∧
  (∀ db, isInTransaction db = true → isPreparedDB db = false →
     (∀ anc, CheckAndUpdate db anc
             = (([], Some ErrDisallowedCallingInNoPreparedDB), db, anc)) ∧
     Reset db = (Some ErrDisallowedCallingInNoPreparedDB, db)).
Proof.
  split.
  - intros parent t c parent'. unfold Prepare.
    destruct (isInTransaction parent); simpl; [|done].
    destruct t as [t|]; [|done].
    destruct (lookup_prepared t (preparedDBs parent)); [done|].
    destruct (tbl_Prepare _ t); [done|]. by intros [= <- <-].
  - intros db HinTx Hprep. split.
    + intros anc. unfold CheckAndUpdate. by rewrite HinTx, Hprep.
    + destruct db. simpl in *. by subst.
Qed.

End Guards.

Lemma transaction_ends_witness :
  ∃ db' s', Commit scenario_db empty_log = (None, db', s') ∧
            Commit db' s' = (Some ErrTransactionNotStarted, db', s') ∧
            Begin db' = (None, set_isInTransaction db' true).
Proof.
  eexists _, _. split; [reflexivity|].
  destruct (transaction_ends scenario_db empty_log _ _ (or_introl eq_refl))
    as (Hcommit & _ & _ & _ & _ & Hbegin).
  by split.
Defined.

Lemma operations_refused_by_kind_witness :
  ∃ c, prepared_T1 = Some c ∧
       Commit c empty_log = (Some ErrUnsupportedCommitInPreparedDB, c, empty_log) ∧
       Reset (Begin (NewMVCCDB 0)).2
       = (Some ErrDisallowedCallingInNoPreparedDB, (Begin (NewMVCCDB 0)).2).
Proof.
  eexists. split; [reflexivity|].
  destruct (operations_refused_by_kind empty_log) as [Hprepared Hroot].
  split.
  - eapply Hprepared with (parent := (Begin (NewMVCCDB 0)).2) (t := Some T1). reflexivity.
  - apply Hroot; reflexivity.
Defined.

(** ** Registered TIDs *)

Lemma lookup_prepared_map (g : Tid * MVCCDB → Tid * MVCCDB) (f : MVCCDB → MVCCDB) t l :
  (∀ p, g p = (p.1, f p.2)) →
  lookup_prepared t (map g l) = f <$> lookup_prepared t l.
Proof.
  intros Hg. induction l as [|[t' pdb] l IH]; simpl; [done|].
  rewrite Hg. simpl. by destruct (decide (t' = t)).
Qed.

Lemma lookup_prepared_app t l pdb :
  lookup_prepared t l = None → lookup_prepared t (l ++ [(t, pdb)]) = Some pdb.
Proof.
  induction l as [|[t' pdb'] l IH]; simpl.
  - intros _. by rewrite decide_True.
  - by destruct (decide (t' = t)).
Qed.

Lemma Prepare_registers db t c db1 :
  Prepare db (Some t) = ((Some c, None), db1) →
  isInTransaction db1 = true ∧ isPreparedDB db1 = isPreparedDB db ∧
  lookup_prepared t (preparedDBs db1) = Some c ∧
  isInTransaction c = true ∧ isPreparedDB c = true ∧ preparedDBs c = [].
Proof.
  unfold Prepare. destruct (isInTransaction db) eqn:HinTx; simpl; [|done].
  destruct (lookup_prepared t (preparedDBs db)) eqn:Hl; [done|].
  destruct (tbl_Prepare _ t); [done|]. intros [= <- <-]. simpl.
  by rewrite lookup_prepared_app.
Qed.

Lemma Reset_flags db :
  isInTransaction (Reset db).2 = isInTransaction db ∧
  isPreparedDB (Reset db).2 = isPreparedDB db.
Proof. destruct db as [t tbl [] [] dty pdbs]; by simpl. Qed.

Lemma purgeTables_flags db :
  isInTransaction (purgeTables db) = isInTransaction db ∧
  isPreparedDB (purgeTables db) = isPreparedDB db.
Proof. by destruct db. Qed.

Section Registered.
Context `{Storage St}.

(** X15: a registered TID is never released.  When [Prepare(tid)] has
    succeeded and the transaction has then been ended by a [Commit] or a
    [RollBack] that succeeded, the DB registered under [tid] is still
    registered and still in a transaction, and in the next transaction of
    the root [Prepare(tid)] fails with [ErrTidIsExist] and changes nothing. *)
Theorem tid_never_released db t c db1 (s : St) db2 s2 :
  Prepare db (Some t) = ((Some c, None), db1) →
  Commit db1 s = (None, db2, s2) ∨ RollBack db1 s = (None, db2, s2) →
  (∃ c', lookup_prepared t (preparedDBs db2) = Some c' ∧
         isInTransaction c' = true ∧ isPreparedDB c' = true) ∧
  ∃ db3, Begin db2 = (None, db3) ∧
         Prepare db3 (Some t) = ((None, Some ErrTidIsExist), db3).
Proof.
  intros Hprepare Hend.
  apply Prepare_registers in Hprepare as (HinTx & _ & Hl & HcinTx & Hcprep & _).
  assert (Hkept : isInTransaction db2 = false ∧ isPreparedDB db2 = false ∧
    ∃ c', lookup_prepared t (preparedDBs db2) = Some c' ∧
          isInTransaction c' = true ∧ isPreparedDB c' = true).
  { destruct Hend as [Hc|Hr].
    - unfold Commit in Hc. rewrite HinTx in Hc. simpl in Hc.
      destruct (isPreparedDB db1) eqn:Hp; simpl in Hc; [done|].
      destruct (IsPreparedDBDirty db1); [done|]. injection Hc as <- <-.
      repeat split; try done. by exists c.
    - unfold RollBack in Hr. rewrite HinTx in Hr. cbn [negb] in Hr.
      destruct (isPreparedDB db1) eqn:Hp; [done|].
      injection Hr as <- <-. split; [done|]. split; [by destruct db1|].
      exists (purgeTables (Reset c).2).
      unfold set_isDirtyDB, set_isInTransaction. cbn [preparedDBs].
      rewrite (lookup_prepared_map _ purgeTables) by by intros [].
      rewrite (lookup_prepared_map _ (λ pdb, (Reset pdb).2)) by done.
      rewrite Hl. split; [done|].
      destruct (purgeTables_flags (Reset c).2) as [-> ->].
      by destruct (Reset_flags c) as [-> ->]. }
  destruct Hkept as (HinTx2 & Hprep2 & c' & Hl2 & Hc').
  split; [by exists c'|].
  exists (set_isInTransaction db2 true). split.
  - unfold Begin. by rewrite HinTx2, Hprep2.
  - unfold Prepare. simpl. by rewrite Hl2.
Qed.

End Registered.

Lemma tid_never_released_witness :
  ∃ c db1 db2 s2 db3,
    Prepare (Begin (NewMVCCDB 0)).2 (Some T1) = ((Some c, None), db1) ∧
    RollBack db1 empty_log = (None, db2, s2) ∧
    Begin db2 = (None, db3) ∧
    Prepare db3 (Some T1) = ((None, Some ErrTidIsExist), db3).
Proof.
  eexists _, _, _, _, _. split; [reflexivity|]. split; [reflexivity|].
  destruct (tid_never_released (Begin (NewMVCCDB 0)).2 T1 _ _ empty_log _ _
              eq_refl (or_intror eq_refl)) as (_ & db3 & Hbegin & Hprepare).
  injection Hbegin as <-. by split.
Defined.

(** ** What [Commit] leaves behind *)

Section Flushes.
Context `{Storage St}.

Lemma foldl_flush_refused (l : list VersionizedValueItem) (s : St) :
  (∀ s k v, (storage_Put s k v).1 = s) → (∀ s k, (storage_Del s k).1 = s) →
  foldl flush s l = s.
Proof.
  intros Hput Hdel. induction l as [|value l IH]; simpl; [done|].
  replace (flush s value) with s; [done|].
  unfold flush, putToStorage, delFromStorage.
  destruct (isDefault value), (dirty value), (deleted value); simpl;
    by rewrite ?Hput, ?Hdel.
Qed.

(** X16: [Commit] drops the errors of the storage.  Over a storage that
    refuses every [Put] and every [Del] with an error and keeps its content,
    [Commit] on a root DB in a transaction still returns [nil] and clears
    [isInTransaction] and [isDirtyDB]; the storage is as it was before. *)
Theorem Commit_drops_storage_errors db (s : St) :
  (∀ s k v, ∃ err, storage_Put s k v = (s, Some err)) →
  (∀ s k, ∃ err, storage_Del s k = (s, Some err)) →
  isInTransaction db = true → isPreparedDB db = false →
  Commit db s = (None, set_isDirtyDB (set_isInTransaction db false) false, s).
Proof.
  intros Hput Hdel HinTx Hprep. unfold Commit.
  rewrite HinTx, Hprep, IsPreparedDBDirty_false. simpl.
  rewrite foldl_flush_refused; [done| |].
  - intros s0 k v. by destruct (Hput s0 k v) as [err ->].
  - intros s0 k. by destruct (Hdel s0 k) as [err ->].
Qed.

(** X17: [Commit] does not purge the staging table.  After a [Commit] that
    succeeded the staging table is as it was, so [Begin] and a second
    [Commit] succeed too, and the second [Commit] sends the storage one write
    for every record that the first one flushed, whatever the order in which
    it visits them. *)
Theorem Commit_keeps_staging_table db (s : Recorded St) db1 s1 :
  Commit db s = (None, db1, s1) →
  stagingTable db1 = stagingTable db ∧
  ∃ db2 s2 again,
    Commit (Begin db1).2 s1 = (None, db2, s2) ∧
    stagingTable db2 = stagingTable db ∧
    calls s2 = calls s1 ++ again ∧
    again ≡ₚ call_of <$> filter (λ value, flushed value = true)
                          (GetVersionizedValues (stagingTable db)).
Proof.
  intros Hcommit. unfold Commit in Hcommit.
  destruct (isInTransaction db) eqn:HinTx; simpl in Hcommit; [|done].
  destruct (isPreparedDB db) eqn:Hprep; simpl in Hcommit; [done|].
  rewrite IsPreparedDBDirty_false in Hcommit. injection Hcommit as <- <-.
  split; [done|].
  set (db1 := set_isDirtyDB (set_isInTransaction db false) false).
  assert (Hbegin : Begin db1 = (None, set_isInTransaction db1 true)).
  { unfold Begin, db1. simpl. by rewrite Hprep. }
  rewrite Hbegin. unfold Commit. cbn [snd set_isInTransaction isInTransaction negb].
  replace (isPreparedDB (set_isInTransaction db1 true)) with false by done.
  rewrite IsPreparedDBDirty_false. eexists _, _, _. split; [reflexivity|].
  split; [done|]. rewrite (foldl_flush_recorded _ (foldl flush s _)).
  cbn [calls stagingTable db1 set_isInTransaction set_isDirtyDB]. done.
Qed.

End Flushes.

(** [begin; put(a,1); put(b,2); del(a)] on a new root DB over the storage
    that refuses every write. *)
Lemma Commit_drops_storage_errors_witness :
  let db := (run_calls [OnRoot (OpPut key_a val_1); OnRoot (OpPut key_b val_2);
                        OnRoot (OpDel key_a)] (Begin (NewMVCCDB 0)).2 refusing).1 in
  isDirtyDB db = true ∧
  Commit db refusing = (None, set_isDirtyDB (set_isInTransaction db false) false, refusing).
Proof.
  split; [reflexivity|].
  apply Commit_drops_storage_errors; try reflexivity.
  - intros [] k v. by eexists.
  - intros [] k. by eexists.
Defined.

Lemma Commit_keeps_staging_table_witness :
  ∃ db1 s1 db2 s2 again,
    Commit scenario_db empty_log = (None, db1, s1) ∧
    calls s1 = [CallDel key_a; CallPut key_b val_2] ∧
    Commit (Begin db1).2 s1 = (None, db2, s2) ∧
    calls s2 = calls s1 ++ again ∧
    again ≡ₚ [CallDel key_a; CallPut key_b val_2].
Proof.
  eexists _, _.
  destruct (Commit_keeps_staging_table scenario_db empty_log _ _ eq_refl)
    as (_ & db2 & s2 & again & Hcommit & _ & Hcalls & Hagain).
  exists db2, s2, again. split; [reflexivity|]. split; [reflexivity|].
  split; [exact Hcommit|]. split; [exact Hcalls | exact Hagain].
Defined.

(** ** [Reset] *)

Lemma cleared_tids db : (preparedDBs (cleared db)).*1 = (preparedDBs db).*1.
Proof.
  destruct db as [t tbl inTx prep dty pdbs]. simpl.
  induction pdbs as [|[t' pdb] pdbs IH]; [done|]. simpl in *. by f_equal.
Qed.

Lemma cleared_idemp db : cleared (cleared db) = cleared db.
Proof.
  induction db as [t tbl inTx prep dty pdbs IH] using MVCCDB_tree_ind. simpl.
  f_equal. rewrite map_map. apply map_ext_Forall.
  eapply Forall_impl; [exact IH|]. intros [t' pdb] Hpdb. simpl in *. by rewrite Hpdb.
Qed.

(** X18: [Reset] on a DB that [Prepare] built, whatever has been prepared
    from it since, succeeds; it keeps the TID, the flags [isInTransaction]
    and [isPreparedDB] and the TIDs registered with the DB, leaves neither
    the DB nor any DB prepared below it dirty, and a second [Reset] changes
    nothing more. *)
Theorem Reset_clears_dirty_flags db :
  prepared_tree db →
  ∃ db', Reset db = (None, db') ∧
    tid db' = tid db ∧ isInTransaction db' = true ∧ isPreparedDB db' = true ∧
    (preparedDBs db').*1 = (preparedDBs db).*1 ∧
    isDirtyDB db' = false ∧
    (∀ d, prepared_descendant db' d → isDirtyDB d = false) ∧
    Reset db' = (None, db').
Proof.
  intros Htree. exists (cleared db). split; [by apply Reset_prepared_tree|].
  split; [by destruct db|].
  split; [by inversion Htree|]. split; [by inversion Htree|].
  split; [apply cleared_tids|]. split; [by destruct db|].
  split; [intros d Hd; by apply cleared_descendant in Hd as [_ ?]|].
  rewrite Reset_prepared_tree by by apply cleared_prepared_tree.
  by rewrite cleared_idemp.
Qed.

Lemma Reset_clears_dirty_flags_witness :
  ∃ db', Reset late_db = (None, db') ∧ isDirtyDB late_db = true ∧ isDirtyDB db' = false.
Proof.
  assert (Htree : prepared_tree late_db) by (constructor; constructor).
  destruct (Reset_clears_dirty_flags late_db Htree) as (db' & Hreset & _ & _ & _ & _ & Hclean & _).
  exists db'. by repeat split.
Defined.

End mvccdbv2_coverage.
